(** * Tide gauge firmware (src/main.cpp): needle mapping, data services, main loop

    A shallow embedding of the firmware's engine: the DAC mapping [tideToDAC],
    the compass mapping [windDirection], the two data services [fetchTide] and
    [fetchWeather], and the [setup]/[loop] scheduler, followed by the
    properties of the specification that concern them. *)

From Stdlib Require Import ZArith QArith Qround Qabs Lia List String Ascii Bool.
From Stdlib Require Import DecimalString DecimalZ DecimalPos.
From Stdlib Require Import Permutation Sorted Lqa.
Import ListNotations.

Local Open Scope Z_scope.

(** ** Single-precision arithmetic

    The firmware computes in C [float] (IEEE 754 binary32, round to nearest,
    ties to even).  A finite [float] is modelled by the rational it denotes,
    and every arithmetic operation rounds its exact result back to binary32:
    24 significant bits, with the spacing 2^-149 of the subnormal range as
    the finest grid.  The exponent range is not bounded above, and the
    non-finite values (infinities, NaN) and the sign of zero are outside the
    model. *)

Module F32.

Definition float : Type := Q.

(** Round to the nearest integer, ties to the even one. *)
Definition rne (x : Q) : Z :=
  let f := Qfloor x in
  match (x - inject_Z f ?= 1 # 2)%Q with
  | Lt => f
  | Gt => f + 1
  | Eq => if Z.even f then f else f + 1
  end.

(** Values are rounded in units of 2^-149.  In those units a magnitude below
    2^24 sits on the integer grid (subnormals and the first normal binade); a
    larger one keeps its 24 leading bits. *)
Definition unit_scale : Z := 2 ^ 149.

Definition ulp_exp (x : Q) : Z :=
  Z.max 0 (Z.log2 (Qfloor (Qabs x)) - 23).

Definition round_units (x : Q) : Z :=
  let p := 2 ^ ulp_exp x in
  rne (x / inject_Z p) * p.

Definition round32 (q : Q) : float :=
  Qred (inject_Z (round_units (q * inject_Z unit_scale)) / inject_Z unit_scale).

Definition fadd (x y : float) : float := round32 (x + y).
Definition fsub (x y : float) : float := round32 (x - y).
Definition fmul (x y : float) : float := round32 (x * y).
Definition fdiv (x y : float) : float := round32 (x / y).
Definition fneg (x : float) : float := Qred (- x).

(** [x < y] on floats. *)
Definition fltb (x y : float) : bool :=
  (Qnum x * QDen y <? Qnum y * QDen x)%Z.

(** A decimal literal with the [f] suffix: the nearest binary32 value. *)
Definition lit (q : Q) : float := round32 q.

End F32.

Import F32.

(** Rounding is unfolded last when terms are compared: programs that share a
    float expression are compared before the arithmetic inside it. *)
Strategy 100 [round32].

(** ** C++ integers and conversions *)

Definition INT_MIN : Z := - 2 ^ 31.
Definition INT_MAX : Z := 2 ^ 31 - 1.

Definition in_int (z : Z) : bool := (INT_MIN <=? z) && (z <=? INT_MAX).

(** A result of type [int]; [None] stands for undefined behaviour (the value
    is not representable). *)
Definition checked (z : Z) : option Z := if in_int z then Some z else None.

Definition int_add (a b : Z) : option Z := checked (a + b).

(** Truncation toward zero. *)
Definition Qtrunc (x : Q) : Z := Z.quot (Qnum x) (QDen x).

(** [(int)x] for a float [x]: the fractional part is discarded; undefined
    when the truncated value does not fit [int]. *)
Definition float_to_int (x : float) : option Z := checked (Qtrunc x).

(** [(uint8_t)z]. *)
Definition to_uint8 (z : Z) : Z := z mod 256.

Notation "x <- c1 ;; c2" :=
  (match c1 with Some x => c2 | None => None end)
  (at level 61, c1 at next level, right associativity).

(** Arduino's [constrain(amt, low, high)] macro:
    [((amt)<(low)?(low):((amt)>(high)?(high):(amt)))]. *)
Definition constrain {A : Type} (ltb : A -> A -> bool) (amt low high : A) : A :=
  if ltb amt low then low else if ltb high amt then high else amt.

(** ** DAC helpers *)

Definition DAC_CENTER : Z := 128.
Definition TIDE_SCALE_FT : float := 8%Q.
Definition NOAA_MSL_FT : float := Eval vm_compute in lit (835 # 100).

Definition tideToDAC (deltaMSL : float) : option Z :=
  let clamped := constrain fltb deltaMSL (- TIDE_SCALE_FT)%Q TIDE_SCALE_FT in
  let normalized := fdiv clamped TIDE_SCALE_FT in
  i <- float_to_int (fmul normalized 127%Q) ;;
  dac <- int_add DAC_CENTER i ;;
  Some (to_uint8 (constrain Z.ltb dac 0 255)).

(** ** Text formatting *)

Local Open Scope string_scope.

Definition decimal (n : Z) : string := NilZero.string_of_int (Z.to_int n).

(** printf's [%02d]: at least two characters, padded with a zero on the left. *)
Definition fmt02d (n : Z) : string :=
  let d := decimal n in
  if (String.length d <? 2)%nat then "0" ++ d else d.

(** [snprintf(buf, size, ...)] stores at most [size - 1] characters. *)
Definition snprintf (size : nat) (text : string) : string :=
  substring 0 (size - 1) text.

(** The fields of [struct tm] the firmware prints. *)
Record tm : Type := mk_tm { tm_hour : Z; tm_min : Z; tm_sec : Z }.

(** [nowString()]: the local time of day, from [localtime]. *)
Definition nowString (t : tm) : string :=
  snprintf 20 (fmt02d (tm_hour t) ++ ":" ++ fmt02d (tm_min t) ++ ":" ++ fmt02d (tm_sec t)).

(** ** Global state *)

Module TideState.
Record t : Type := mk {
  currentFt : float;        (* current water level above MLLW *)
  deltaMSL : float;         (* current - MSL *)
  nextEventType : string;   (* "High" or "Low" *)
  nextEventFt : float;
  nextEventTime : string;
  fetchedAt : string;
  valid : bool
}.

(** The member initialisers of the struct. *)
Definition init : t := mk 0%Q 0%Q "--" 0%Q "--" "--" false.

Definition set_level (v d : float) (s : t) : t :=
  mk v d (nextEventType s) (nextEventFt s) (nextEventTime s) (fetchedAt s) true.

Definition set_nextEvent (ty : string) (ft : float) (tm : string) (s : t) : t :=
  mk (currentFt s) (deltaMSL s) ty ft tm (fetchedAt s) (valid s).

Definition set_fetchedAt (f : string) (s : t) : t :=
  mk (currentFt s) (deltaMSL s) (nextEventType s) (nextEventFt s)
     (nextEventTime s) f (valid s).
End TideState.

Module WeatherState.
Record t : Type := mk {
  tempF : float;
  windMph : float;
  windDirDeg : float;
  condition : string;
  fetchedAt : string;
  valid : bool
}.

Definition init : t := mk 0%Q 0%Q 0%Q "--" "--" false.

Definition set_fetchedAt (f : string) (s : t) : t :=
  mk (tempF s) (windMph s) (windDirDeg s) (condition s) f (valid s).
End WeatherState.

(** ** NOAA fetch

    The HTTP client, the JSON parser and the clock are the firmware's
    collaborators; one call of [fetchTide] sees them through the values they
    hand back. *)

(** [String(e["v"].as<const char*>()).toFloat()] for an element [e] of the
    data array: the number the text of [v] starts with, and 0 when the member
    is missing or its text is not a number ([None]). *)
Definition toFloat (v : option float) : float :=
  match v with
  | Some x => x
  | None => 0%Q
  end.

(** The water-level request: the status of [http.GET()], whether
    [deserializeJson] reported an error, and the array [doc["data"]], each
    element given by its reading [String(e["v"]).toFloat()]. *)
Record WaterLevelReply : Type := mk_wl {
  wl_code : Z;
  wl_err : bool;
  wl_data : list float
}.

(** The zone [setup] selects with [configTime(-8 * 3600, 3600, ...)]: local
    time is eight hours behind GMT. *)
Definition GMT_OFFSET_SEC : Z := -8 * 3600.

(** [mktime(&ptm)] for fields that, read as GMT, denote the instant [t]
    (seconds since the epoch): [mktime] reads them as local time, and as
    standard time since [tm_isdst] is 0, so it returns the instant eight
    hours later (also in the daylight-saving months, where it moves the
    fields one hour on and takes the offset of seven hours). *)
Definition mktime_of_gmt (t : Z) : Z := t - GMT_OFFSET_SEC.

(** One element [p] of [doc2["predictions"]] as the loop body sees it:
    [timestamp] is the instant the GMT text [p["t"]] denotes, [ptm] the
    broken-down time scanned from that text as it stands after [mktime],
    [ptype] is [p["type"].as<String>()] and [pv] is
    [String(p["v"]).toFloat()]. *)
Record Prediction : Type := mk_pred {
  ptm : tm;
  timestamp : Z;
  ptype : string;
  pv : float
}.

(** [time_t pt = mktime(&ptm);] *)
Definition pt (p : Prediction) : Z := mktime_of_gmt (timestamp p).

(** The predictions request is issued twice; the second body is the one
    parsed.  [pr_predictions] is the array [doc2["predictions"]], empty when
    the body does not parse or has no such member. *)
Record PredictionsReply : Type := mk_pr {
  pr_code : Z;
  pr_code2 : Z;
  pr_predictions : list Prediction
}.

Record TideWorld : Type := mk_tw {
  tw_level : WaterLevelReply;
  tw_predictions : PredictionsReply;
  tw_now : Z;          (* time(nullptr), read once before the search *)
  tw_clock : tm        (* localtime at the final stamp *)
}.

(** The body of the [if (pt > now)] branch. *)
Definition take_event (p : Prediction) (s : TideState.t) : TideState.t :=
  TideState.set_nextEvent
    (if (ptype p =? "H")%string then "High" else "Low")
    (pv p)
    (snprintf 10 (fmt02d (tm_hour (ptm p)) ++ ":" ++ fmt02d (tm_min (ptm p)) ++ " UTC"))
    s.

(** [for (JsonObject p : predictions) { ... if (pt > now) { ...; break; } }] *)
Fixpoint scan_predictions (now : Z) (ps : list Prediction) (s : TideState.t)
  : TideState.t :=
  match ps with
  | [] => s
  | p :: rest =>
      if (now <? pt p)%Z then take_event p s
      else scan_predictions now rest s
  end.

Definition fetchTide (w : TideWorld) (s : TideState.t) : TideState.t :=
  (* current water level *)
  let lv := tw_level w in
  let s :=
    if (wl_code lv =? 200)%Z then
      if negb (wl_err lv) then
        match wl_data lv with
        | [] => s
        | e :: _ =>
            (* latest reading is the last element of the data array *)
            let v := last (wl_data lv) e in
            TideState.set_level v (fsub v NOAA_MSL_FT) s
        end
      else s
    else s in
  (* next hi/lo prediction *)
  let pr := tw_predictions w in
  let s :=
    if (pr_code pr =? 200)%Z then
      if (pr_code2 pr =? 200)%Z then
        scan_predictions (tw_now w) (pr_predictions pr) s
      else s
    else s in
  TideState.set_fetchedAt (nowString (tw_clock w)) s.

(** ** Open-Meteo weather fetch *)

Definition wmoDescription (code : Z) : string :=
  match code with
  | 0 => "Clear sky"
  | 1 => "Mainly clear"
  | 2 => "Partly cloudy"
  | 3 => "Overcast"
  | 45 | 48 => "Fog"
  | 51 | 53 | 55 => "Drizzle"
  | 61 | 63 | 65 => "Rain"
  | 71 | 73 | 75 => "Snow"
  | 80 | 81 | 82 => "Showers"
  | 95 => "Thunderstorm"
  | _ => "Unknown (" ++ decimal code ++ ")"
  end%Z.

Definition dirs : list string := ["N"; "NE"; "E"; "SE"; "S"; "SW"; "W"; "NW"].

(** [int idx = (int)((deg + 22.5f) / 45.0f) % 8;] where [%] takes the sign
    of the dividend. *)
Definition windDirection_idx (deg : float) : option Z :=
  i <- float_to_int (fdiv (fadd deg (45 # 2)) 45%Q) ;;
  Some (Z.rem i 8).

(** [dirs[idx]]: undefined outside the eight entries. *)
Definition windDirection (deg : float) : option string :=
  idx <- windDirection_idx deg ;;
  if (idx <? 0)%Z then None else nth_error dirs (Z.to_nat idx).

(** The weather request: status, parse error, and the members of
    [doc["current"]] converted by [as<float>()] and [as<int>()]. *)
Record WeatherReply : Type := mk_wr {
  wr_code : Z;
  wr_err : bool;
  temperature_2m : float;
  windspeed_10m : float;
  winddirection_10m : float;
  weathercode : Z
}.

Record WeatherWorld : Type := mk_ww {
  ww_reply : WeatherReply;
  ww_clock : tm
}.

(** The weather state [fetchWeather] leaves; the direction text of its log
    line is [logged_direction] of that state. *)
Definition fetchWeather (w : WeatherWorld) (s : WeatherState.t) : WeatherState.t :=
  let r := ww_reply w in
  let s :=
    if (wr_code r =? 200)%Z then
      if negb (wr_err r) then
        WeatherState.mk (temperature_2m r) (windspeed_10m r) (winddirection_10m r)
          (wmoDescription (weathercode r)) (WeatherState.fetchedAt s) true
      else s
    else s in
  WeatherState.set_fetchedAt (nowString (ww_clock w)) s.


(** ** Setup and loop *)

Local Open Scope Z_scope.

Definition TIDE_INTERVAL_MS : Z := 360000.
Definition WEATHER_INTERVAL_MS : Z := 900000.
Definition DISPLAY_INTERVAL_MS : Z := 5000.

(** The globals of the sketch, and the values written to the DAC pin so far
    (latest first). *)
Record Device : Type := mk_dev {
  tideState : TideState.t;
  weatherState : WeatherState.t;
  lastTideFetch : Z;
  lastWeatherFetch : Z;
  lastNeedleUpdate : Z;
  dac : list Z
}.

Definition power_on : Device :=
  mk_dev TideState.init WeatherState.init 0 0 0 [].

Definition dacWrite (value : Z) (d : Device) : Device :=
  mk_dev (tideState d) (weatherState d) (lastTideFetch d) (lastWeatherFetch d)
         (lastNeedleUpdate d) (value :: dac d).

(** [void setNeedle(uint8_t dacVal)] *)
Definition setNeedle (dacVal : Z) (d : Device) : Device :=
  dacWrite (to_uint8 dacVal) d.

(** [for (int i = 0; i <= 255; i += 3) setNeedle(i);] *)
Fixpoint sweep_up (fuel : nat) (i : Z) (d : Device) : Device :=
  match fuel with
  | O => d
  | S fuel' => if i <=? 255 then sweep_up fuel' (i + 3) (setNeedle i d) else d
  end.

(** [for (int i = 255; i >= DAC_CENTER; i -= 3) setNeedle(i);] *)
Fixpoint sweep_down (fuel : nat) (i : Z) (d : Device) : Device :=
  match fuel with
  | O => d
  | S fuel' => if DAC_CENTER <=? i then sweep_down fuel' (i - 3) (setNeedle i d) else d
  end.

(** Boot sweep: full left, sweep to full right, back to center. *)
Definition bootSweep (d : Device) : Device :=
  let d := setNeedle 0 d in
  let d := sweep_up 256 0 d in
  let d := sweep_down 256 255 d in
  setNeedle DAC_CENTER d.

Definition do_fetchTide (w : TideWorld) (d : Device) : Device :=
  mk_dev (fetchTide w (tideState d)) (weatherState d) (lastTideFetch d)
         (lastWeatherFetch d) (lastNeedleUpdate d) (dac d).

Definition do_fetchWeather (w : WeatherWorld) (d : Device) : Device :=
  mk_dev (tideState d) (fetchWeather w (weatherState d)) (lastTideFetch d)
         (lastWeatherFetch d) (lastNeedleUpdate d) (dac d).

(** [setNeedle(tideToDAC(tideState.deltaMSL));] *)
Definition needle_to_tide (d : Device) : option Device :=
  c <- tideToDAC (TideState.deltaMSL (tideState d)) ;;
  Some (setNeedle c d).

(** What one pass of [setup] or [loop] reads from outside. *)
Record World : Type := mk_world {
  millis : Z;
  tide_world : TideWorld;
  weather_world : WeatherWorld
}.


(** [now - last] on [unsigned long] (32 bits on the ESP32). *)
Definition elapsed (now last : Z) : Z := (now - last) mod 2 ^ 32.

(** [loop()]; [server.handleClient()] only reads the state. *)
Definition loop (w : World) (d : Device) : option Device :=
  let now := millis w in
  let d :=
    if TIDE_INTERVAL_MS <=? elapsed now (lastTideFetch d) then
      do_fetchTide (tide_world w)
        (mk_dev (tideState d) (weatherState d) now (lastWeatherFetch d)
                (lastNeedleUpdate d) (dac d))
    else d in
  let d :=
    if WEATHER_INTERVAL_MS <=? elapsed now (lastWeatherFetch d) then
      do_fetchWeather (weather_world w)
        (mk_dev (tideState d) (weatherState d) (lastTideFetch d) now
                (lastNeedleUpdate d) (dac d))
    else d in
  if DISPLAY_INTERVAL_MS <=? elapsed now (lastNeedleUpdate d) then
    let d := mk_dev (tideState d) (weatherState d) (lastTideFetch d)
                    (lastWeatherFetch d) now (dac d) in
    if TideState.valid (tideState d) then needle_to_tide d else Some d
  else Some d.



(** ** Notions the properties are stated with *)

(** The clamped and scaled reading of [tideToDAC], [normalized * 127.0f],
    before the conversion to [int]. *)
Definition dac_counts (deltaMSL : float) : float :=
  fmul (fdiv (constrain fltb deltaMSL (- TIDE_SCALE_FT)%Q TIDE_SCALE_FT) TIDE_SCALE_FT)
       127%Q.

(** The quotient [(deg + 22.5f) / 45.0f] of [windDirection]. *)
Definition wind_quotient (deg : float) : float :=
  fdiv (fadd deg (45 # 2)) 45%Q.

(** The sector formula in the specification's words:
    [sector = round(deg / 45) mod 8], in exact arithmetic. *)
Definition spec_sector (deg : Q) : Z := rne (deg / 45) mod 8.

(** The index computed for [n] whole degrees is the specification's sector. *)
Definition sector_agrees (n : nat) : bool :=
  match windDirection_idx (inject_Z (Z.of_nat n)) with
  | Some idx => idx =? spec_sector (inject_Z (Z.of_nat n))
  | None => false
  end.

(** A prediction qualifies when it lies strictly after [now]. *)
Definition qualifies (now : Z) (p : Prediction) : bool := now <? pt p.

(** The next-event group and the level group of the tide state, each as a
    whole. *)
Definition next_event (s : TideState.t) : string * float * string :=
  (TideState.nextEventType s, TideState.nextEventFt s, TideState.nextEventTime s).

Definition level (s : TideState.t) : float * float :=
  (TideState.currentFt s, TideState.deltaMSL s).

(** What a prediction puts into the next-event group: "High" for type "H"
    and "Low" otherwise, its level, and its time of day as HH:MM UTC. *)
Definition event_fields (p : Prediction) : string * float * string :=
  ((if (ptype p =? "H")%string then "High" else "Low")%string,
   pv p,
   snprintf 10
     (fmt02d (tm_hour (ptm p)) ++ ":" ++ fmt02d (tm_min (ptm p)) ++ " UTC")%string).

(** The fields of the weather state other than the stamp. *)
Definition conditions (s : WeatherState.t) : float * float * float * string * bool :=
  (WeatherState.tempF s, WeatherState.windMph s, WeatherState.windDirDeg s,
   WeatherState.condition s, WeatherState.valid s).

(** The water-level request handed back a reading: status 200, a document
    that parsed, a non-empty [data] array. *)
Definition level_ok (lv : WaterLevelReply) : Prop :=
  wl_code lv = 200 /\ wl_err lv = false /\ wl_data lv <> [].

(** The three ways the code skips the level update: a status other than 200,
    a body that is not JSON, an empty [data] array.  A last element whose
    [v] is missing or not a number is none of them: it is a reading of 0. *)
Definition level_failed (lv : WaterLevelReply) : Prop :=
  wl_code lv <> 200 \/ wl_err lv = true \/ wl_data lv = [].

(** Both requests for the predictions came back with status 200. *)
Definition predictions_ok (pr : PredictionsReply) : Prop :=
  pr_code pr = 200 /\ pr_code2 pr = 200.

Definition predictions_failed (pr : PredictionsReply) : Prop :=
  pr_code pr <> 200 \/ pr_code2 pr <> 200.

Definition weather_failed (r : WeatherReply) : Prop :=
  wr_code r <> 200 \/ wr_err r = true.

(** The two request blocks of [fetchTide], each on its own. *)
Definition level_step (lv : WaterLevelReply) (s : TideState.t) : TideState.t :=
  if wl_code lv =? 200 then
    if negb (wl_err lv) then
      match wl_data lv with
      | [] => s
      | e :: _ =>
          let v := last (wl_data lv) e in
          TideState.set_level v (fsub v NOAA_MSL_FT) s
      end
    else s
  else s.

Definition event_step (pr : PredictionsReply) (now : Z) (s : TideState.t)
  : TideState.t :=
  if pr_code pr =? 200 then
    if pr_code2 pr =? 200 then scan_predictions now (pr_predictions pr) s
    else s
  else s.

(** Once valid, the deviation is the level minus the station constant. *)
Definition level_consistent (s : TideState.t) : Prop :=
  TideState.valid s = true ->
  TideState.deltaMSL s = fsub (TideState.currentFt s) NOAA_MSL_FT.

(** Successive refresh cycles of the tide service. *)
Definition fetch_cycles (ws : list TideWorld) (s : TideState.t) : TideState.t :=
  fold_left (fun s w => fetchTide w s) ws s.

(** The needle refresh of a pass of [loop] is due. *)
Definition needle_due (w : World) (d : Device) : bool :=
  DISPLAY_INTERVAL_MS <=? elapsed (millis w) (lastNeedleUpdate d).

(** The tide state a pass of [loop] leaves: refreshed when the tide timer
    has expired. *)
Definition tide_after (w : World) (d : Device) : TideState.t :=
  if TIDE_INTERVAL_MS <=? elapsed (millis w) (lastTideFetch d)
  then fetchTide (tide_world w) (tideState d)
  else tideState d.

(** The device after the two fetch blocks of [loop], before the needle
    block. *)
Definition after_fetches (w : World) (d : Device) : Device :=
  let now := millis w in
  let d :=
    if TIDE_INTERVAL_MS <=? elapsed now (lastTideFetch d) then
      do_fetchTide (tide_world w)
        (mk_dev (tideState d) (weatherState d) now (lastWeatherFetch d)
                (lastNeedleUpdate d) (dac d))
    else d in
  if WEATHER_INTERVAL_MS <=? elapsed now (lastWeatherFetch d) then
    do_fetchWeather (weather_world w)
      (mk_dev (tideState d) (weatherState d) (lastTideFetch d) now
              (lastNeedleUpdate d) (dac d))
  else d.

(** While the tide state is not valid, the deviation is still the zero of
    the initial state. *)
Definition unset_level (s : TideState.t) : Prop :=
  TideState.valid s = false -> TideState.deltaMSL s = 0%Q.

(** The code [tideToDAC] gives for the deviation in a tide state. *)
Definition needle_code (s : TideState.t) : Z :=
  DAC_CENTER + Qtrunc (dac_counts (TideState.deltaMSL s)).

(** The three predictions of the specification's example, one hour before
    and two and five hours after [now = 0], and the same entries in another
    order. *)
Definition example_predictions : list Prediction :=
  [ mk_pred (mk_tm 23 0 0) (-3600) "H" (33 # 4);
    mk_pred (mk_tm 2 0 0) 7200 "L" (5 # 4);
    mk_pred (mk_tm 5 0 0) 18000 "H" (63 # 8) ].

Definition example_shuffled : list Prediction :=
  [ mk_pred (mk_tm 5 0 0) 18000 "H" (63 # 8);
    mk_pred (mk_tm 23 0 0) (-3600) "H" (33 # 4);
    mk_pred (mk_tm 2 0 0) 7200 "L" (5 # 4) ].

(** Two predictions after [now = 0], later one first, and in time order. *)
Definition future_pair_swapped : list Prediction :=
  [ mk_pred (mk_tm 5 0 0) 18000 "H" (63 # 8);
    mk_pred (mk_tm 2 0 0) 7200 "L" (5 # 4) ].

Definition future_pair : list Prediction :=
  [ mk_pred (mk_tm 2 0 0) 7200 "L" (5 # 4);
    mk_pred (mk_tm 5 0 0) 18000 "H" (63 # 8) ].

(** A prediction ten hours before [now = 0], then the two after it. *)
Definition old_then_future : list Prediction :=
  mk_pred (mk_tm 14 0 0) (-36000) "H" (33 # 4) :: future_pair.

(** Worlds in which every request fails, and one in which both tide
    requests succeed. *)
Definition noon : tm := mk_tm 12 0 0.


Definition weather_down : WeatherWorld :=
  mk_ww (mk_wr (-1) false 0%Q 0%Q 0%Q 0) noon.

Definition tide_up : TideWorld :=
  mk_tw (mk_wl 200 false [(73 # 8); (75 # 8)])
        (mk_pr 200 200 example_predictions) 0 noon.

(** Only the predictions arrive; only the water level arrives. *)
Definition events_only : TideWorld :=
  mk_tw (mk_wl (-1) false []) (mk_pr 200 200 future_pair) 0 noon.

Definition level_only : TideWorld :=
  mk_tw (mk_wl 200 false [(73 # 8); (75 # 8)])
        (mk_pr (-1) (-1) []) 0 noon.

(** The water level arrives with a last element that has no usable [v]. *)
Definition level_unreadable : TideWorld :=
  mk_tw (mk_wl 200 false (map toFloat [Some (73 # 8); None]))
        (mk_pr (-1) (-1) []) 0 noon.

(** At noon (43200 s) the only prediction is the high tide of 05:00 GMT, seven
    hours earlier; and the same with the high tide of 02:00 GMT, ten hours
    earlier. *)
Definition recent_past : TideWorld :=
  mk_tw (mk_wl (-1) false [])
        (mk_pr 200 200 [mk_pred (mk_tm 5 0 0) 18000 "H" (33 # 4)]) 43200 noon.

Definition old_past : TideWorld :=
  mk_tw (mk_wl (-1) false [])
        (mk_pr 200 200 [mk_pred (mk_tm 2 0 0) 7200 "H" (33 # 4)]) 43200 noon.

(** ** Web page helpers *)

(** [tideBarPercent()]: maps [deltaMSL] to 0-100 percent, center 50; the
    division, the product and the sum are each rounded to single precision. *)
Definition tideBarPercent (s : TideState.t) : option Z :=
  let pct := fadd 50%Q (fmul (fdiv (TideState.deltaMSL s) TIDE_SCALE_FT) 50%Q) in
  float_to_int (constrain fltb pct 0%Q 100%Q).

(** The bar position before the conversion to [int]. *)
Definition bar_position (deltaMSL : float) : float :=
  constrain fltb (fadd 50%Q (fmul (fdiv deltaMSL TIDE_SCALE_FT) 50%Q)) 0%Q 100%Q.

(** ** Traces of the boot sweep *)

(** The values the two sweep loops write, latest first, on top of [acc]. *)
Fixpoint up_writes (fuel : nat) (i : Z) (acc : list Z) : list Z :=
  match fuel with
  | O => acc
  | S fuel' => if i <=? 255 then up_writes fuel' (i + 3) (to_uint8 i :: acc) else acc
  end.

Fixpoint down_writes (fuel : nat) (i : Z) (acc : list Z) : list Z :=
  match fuel with
  | O => acc
  | S fuel' =>
      if DAC_CENTER <=? i then down_writes fuel' (i - 3) (to_uint8 i :: acc) else acc
  end.

(** The boot sweep in the order of the writes: a snap to 0, up from 0 to 255
    in steps of 3, down from 255 to 129 in steps of 3, and the center. *)
Definition sweep_sequence : list Z :=
  [0] ++ map (fun k => 3 * Z.of_nat k) (seq 0 86)
      ++ map (fun k => 255 - 3 * Z.of_nat k) (seq 0 43)
      ++ [DAC_CENTER].

(** The timer of the tide fetch, of the weather fetch, has expired. *)
Definition tide_due (w : World) (d : Device) : bool :=
  TIDE_INTERVAL_MS <=? elapsed (millis w) (lastTideFetch d).

Definition weather_due (w : World) (d : Device) : bool :=
  WEATHER_INTERVAL_MS <=? elapsed (millis w) (lastWeatherFetch d).

(** Successive refresh cycles of the weather service. *)
Definition weather_cycles (ws : list WeatherWorld) (s : WeatherState.t)
  : WeatherState.t :=
  fold_left (fun s w => fetchWeather w s) ws s.

Definition weather_ok (r : WeatherReply) : Prop :=
  wr_code r = 200 /\ wr_err r = false.

(** The codes [wmoDescription] has a label for. *)
Definition wmo_known (code : Z) : bool :=
  existsb (Z.eqb code)
    [0; 1; 2; 3; 45; 48; 51; 53; 55; 61; 63; 65; 71; 73; 75; 80; 81; 82; 95].

(** The two decimal digits of a number below 100. *)
Definition two_digits (n : Z) : string :=
  String (ascii_of_nat (48 + Z.to_nat (n / 10)))
    (String (ascii_of_nat (48 + Z.to_nat (n mod 10))) EmptyString).

Definition fmt02d_agrees (n : nat) : bool :=
  (fmt02d (Z.of_nat n) =? two_digits (Z.of_nat n))%string.

(** A field of a broken-down time that prints with two digits. *)
Definition two_digit_field (n : Z) : Prop := 0 <= n <= 99.



(** * Properties

    ** Rounding *)

(** Turn the result of a comparison of rationals into the order fact. *)
Ltac qcompare_facts :=
  repeat match goal with
  | H : (_ ?= _)%Q = Eq |- _ => apply (proj2 (Qeq_alt _ _)) in H
  | H : (_ ?= _)%Q = Lt |- _ => apply (proj2 (Qlt_alt _ _)) in H
  | H : (_ ?= _)%Q = Gt |- _ => apply (proj2 (Qgt_alt _ _)) in H
  end.

Section Rounding.

Lemma rne_cases (x : Q) : rne x = Qfloor x \/ rne x = Qfloor x + 1.
Proof.
  unfold rne. destruct (x - inject_Z (Qfloor x) ?= 1 # 2)%Q; auto.
  destruct (Z.even (Qfloor x)); auto.
Qed.

Lemma rne_Z (z : Z) : rne (inject_Z z) = z.
Proof.
  unfold rne. rewrite Qfloor_Z.
  assert (H : (inject_Z z - inject_Z z ?= 1 # 2)%Q = Lt).
  { rewrite <- Qlt_alt. lra. }
  now rewrite H.
Qed.

Lemma rne_le (x y : Q) : (x <= y)%Q -> rne x <= rne y.
Proof.
  intros Hxy.
  pose proof (Qfloor_resp_le _ _ Hxy) as Hf.
  destruct (Z.eq_dec (Qfloor x) (Qfloor y)) as [E | NE].
  - unfold rne. rewrite <- E.
    destruct (x - inject_Z (Qfloor x) ?= 1 # 2)%Q eqn:Cx;
      destruct (y - inject_Z (Qfloor x) ?= 1 # 2)%Q eqn:Cy;
      try destruct (Z.even (Qfloor x)); try lia;
      qcompare_facts;
      exfalso; lra.
  - destruct (rne_cases x), (rne_cases y); lia.
Qed.

Lemma ulp_exp_nonneg (x : Q) : 0 <= ulp_exp x.
Proof. apply Z.le_max_l. Qed.

Lemma pow2_ulp_pos (x : Q) : 0 < 2 ^ ulp_exp x.
Proof. apply Z.pow_pos_nonneg; [lia | apply ulp_exp_nonneg]. Qed.

(** A rounded multiple of [p] stays on the same side of a grid point [a * p]. *)
Lemma rne_scaled_le (p a : Z) (x : Q) :
  0 < p -> (x <= inject_Z (a * p))%Q -> rne (x / inject_Z p) * p <= a * p.
Proof.
  intros Hp Hx. apply Z.mul_le_mono_nonneg_r; [lia |].
  rewrite <- (rne_Z a). apply rne_le.
  apply Qle_shift_div_r.
  - change 0%Q with (inject_Z 0). rewrite <- Zlt_Qlt. exact Hp.
  - rewrite <- inject_Z_mult. exact Hx.
Qed.

Lemma rne_scaled_ge (p a : Z) (x : Q) :
  0 < p -> (inject_Z (a * p) <= x)%Q -> a * p <= rne (x / inject_Z p) * p.
Proof.
  intros Hp Hx. apply Z.mul_le_mono_nonneg_r; [lia |].
  rewrite <- (rne_Z a) at 1. apply rne_le.
  apply Qle_shift_div_l.
  - change 0%Q with (inject_Z 0). rewrite <- Zlt_Qlt. exact Hp.
  - rewrite <- inject_Z_mult. exact Hx.
Qed.

(** The magnitude lies below the top of the binade its exponent selects ... *)
Lemma abs_lt_binade (x : Q) : (Qabs x < inject_Z (2 ^ (ulp_exp x + 24)))%Q.
Proof.
  set (t := Qfloor (Qabs x)).
  assert (Ht : 0 <= t).
  { unfold t. rewrite <- (Qfloor_Z 0). apply Qfloor_resp_le, Qabs_nonneg. }
  assert (Hlt : t + 1 <= 2 ^ (ulp_exp x + 24)).
  { pose proof (ulp_exp_nonneg x) as He.
    destruct (Z.eq_dec t 0) as [E | NE].
    - rewrite E. assert (2 ^ 0 <= 2 ^ (ulp_exp x + 24)) by (apply Z.pow_le_mono_r; lia).
      change (2 ^ 0) with 1 in *. lia.
    - destruct (Z.log2_spec t) as [_ Hup]; [lia |].
      assert (2 ^ Z.succ (Z.log2 t) <= 2 ^ (ulp_exp x + 24)).
      { apply Z.pow_le_mono_r; [lia |]. unfold ulp_exp. fold t. lia. }
      lia. }
  apply Qlt_le_trans with (inject_Z (t + 1)).
  - apply Qlt_floor.
  - rewrite <- Zle_Qle. exact Hlt.
Qed.

(** ... and, above the integer grid, at or over its bottom. *)
Lemma abs_ge_binade (x : Q) :
  0 < ulp_exp x -> (inject_Z (2 ^ (ulp_exp x + 23)) <= Qabs x)%Q.
Proof.
  intros He. set (t := Qfloor (Qabs x)).
  assert (E : ulp_exp x = Z.log2 t - 23) by (unfold ulp_exp in *; fold t in He |- *; lia).
  assert (Ht : 0 < t).
  { destruct (Z.lt_trichotomy t 0) as [H | [H | H]]; trivial.
    - rewrite (Z.log2_nonpos t) in E by lia. lia.
    - rewrite H in E. change (Z.log2 0) with 0 in E. lia. }
  destruct (Z.log2_spec t Ht) as [Hlo _].
  apply Qle_trans with (inject_Z t).
  - rewrite <- Zle_Qle. rewrite E. replace (Z.log2 t - 23 + 23) with (Z.log2 t) by lia.
    exact Hlo.
  - apply Qfloor_le.
Qed.

Lemma pow2_split (e k : Z) : 0 <= e -> 0 <= k -> 2 ^ (e + k) = 2 ^ k * 2 ^ e.
Proof. intros. rewrite Z.pow_add_r by lia. lia. Qed.

(** Rounding is monotone: within one binade by [rne_le], across binades
    because the power of two between them is on both grids. *)
Lemma round_units_le (x y : Q) : (x <= y)%Q -> round_units x <= round_units y.
Proof.
  intros Hxy. unfold round_units.
  pose proof (ulp_exp_nonneg x) as Hex. pose proof (ulp_exp_nonneg y) as Hey.
  pose proof (pow2_ulp_pos x) as Hpx. pose proof (pow2_ulp_pos y) as Hpy.
  pose proof (abs_lt_binade x) as Hx24. pose proof (abs_lt_binade y) as Hy24.
  destruct (Z.lt_trichotomy (ulp_exp x) (ulp_exp y)) as [L | [E | G]].
  - (* y is in a higher binade, hence positive *)
    pose proof (abs_ge_binade y ltac:(lia)) as Hy23.
    assert (Hpw : 2 ^ (ulp_exp x + 24) <= 2 ^ (ulp_exp y + 23))
      by (apply Z.pow_le_mono_r; lia).
    rewrite Zle_Qle in Hpw.
    assert (Hy : (0 < y)%Q).
    { destruct (Qlt_le_dec 0 y) as [H | H]; trivial. exfalso.
      rewrite (Qabs_neg y H) in Hy23.
      rewrite (Qabs_neg x) in Hx24 by lra. lra. }
    rewrite (Qabs_pos y) in Hy23 by lra.
    pose proof (Qle_Qabs x) as Hxa.
    apply Z.le_trans with (2 ^ (ulp_exp x + 24)).
    + rewrite (pow2_split _ 24) by lia. apply rne_scaled_le; trivial.
      rewrite <- pow2_split by lia. lra.
    + apply Z.le_trans with (2 ^ (ulp_exp y + 23)).
      * rewrite <- Zle_Qle in Hpw. exact Hpw.
      * rewrite (pow2_split _ 23) by lia. apply rne_scaled_ge; trivial.
        rewrite <- pow2_split by lia. exact Hy23.
  - rewrite E. apply Z.mul_le_mono_nonneg_r; [lia |].
    apply rne_le. apply Qmult_le_compat_r; trivial.
    apply Qlt_le_weak, Qinv_lt_0_compat.
    change 0%Q with (inject_Z 0). rewrite <- Zlt_Qlt. exact Hpy.
  - (* x is in a higher binade, hence negative *)
    pose proof (abs_ge_binade x ltac:(lia)) as Hx23.
    assert (Hpw : 2 ^ (ulp_exp y + 24) <= 2 ^ (ulp_exp x + 23))
      by (apply Z.pow_le_mono_r; lia).
    rewrite Zle_Qle in Hpw.
    assert (Hx : (x < 0)%Q).
    { destruct (Qlt_le_dec x 0) as [H | H]; trivial. exfalso.
      rewrite (Qabs_pos x H) in Hx23.
      rewrite (Qabs_pos y) in Hy24 by lra. lra. }
    rewrite (Qabs_neg x) in Hx23 by lra.
    pose proof (Qle_Qabs (- y)) as Hya. rewrite Qabs_opp in Hya.
    apply Z.le_trans with (- 2 ^ (ulp_exp x + 23)).
    + rewrite (pow2_split _ 23) by lia. rewrite <- Z.mul_opp_l.
      apply rne_scaled_le; trivial.
      rewrite Z.mul_opp_l, <- pow2_split by lia. rewrite inject_Z_opp. lra.
    + apply Z.le_trans with (- 2 ^ (ulp_exp y + 24)).
      * rewrite <- Zle_Qle in Hpw. lia.
      * rewrite (pow2_split _ 24) by lia. rewrite <- Z.mul_opp_l.
        apply rne_scaled_ge; trivial.
        rewrite Z.mul_opp_l, <- pow2_split by lia. rewrite inject_Z_opp. lra.
Qed.

Lemma round32_le (x y : Q) : (x <= y)%Q -> (round32 x <= round32 y)%Q.
Proof.
  intros Hxy. unfold round32. rewrite !Qred_correct.
  apply Qmult_le_compat_r.
  - rewrite <- Zle_Qle. apply round_units_le.
    apply Qmult_le_compat_r; trivial. discriminate.
  - discriminate.
Qed.

End Rounding.

(** ** Conversions and clamping *)

Lemma fltb_lt (x y : float) : fltb x y = true <-> (x < y)%Q.
Proof. unfold fltb, Qlt. apply Z.ltb_lt. Qed.

Lemma fltb_ge (x y : float) : fltb x y = false <-> (y <= x)%Q.
Proof. unfold fltb, Qle. apply Z.ltb_ge. Qed.

Ltac fltb_facts :=
  repeat match goal with
  | H : fltb _ _ = true |- _ => apply fltb_lt in H
  | H : fltb _ _ = false |- _ => apply fltb_ge in H
  end.

Lemma constrain_float_range (x lo hi : float) :
  (lo <= hi)%Q ->
  (lo <= constrain fltb x lo hi)%Q /\ (constrain fltb x lo hi <= hi)%Q.
Proof.
  intros H. unfold constrain.
  destruct (fltb x lo) eqn:E1; [split; lra |].
  destruct (fltb hi x) eqn:E2; fltb_facts; split; lra.
Qed.

Lemma constrain_float_le (x y lo hi : float) :
  (lo <= hi)%Q -> (x <= y)%Q ->
  (constrain fltb x lo hi <= constrain fltb y lo hi)%Q.
Proof.
  intros H Hxy. unfold constrain.
  destruct (fltb x lo) eqn:X1; destruct (fltb y lo) eqn:Y1;
    try destruct (fltb hi x) eqn:X2; try destruct (fltb hi y) eqn:Y2;
    fltb_facts; lra.
Qed.

Lemma Qtrunc_nonneg (x : Q) : (0 <= x)%Q -> Qtrunc x = Qfloor x.
Proof.
  destruct x as [n d]. unfold Qle, Qtrunc, Qfloor. cbn. intros H.
  apply Z.quot_div_nonneg; lia.
Qed.

Lemma Qtrunc_nonpos (x : Q) : (x <= 0)%Q -> Qtrunc x = Qceiling x.
Proof.
  destruct x as [n d]. unfold Qle, Qtrunc, Qceiling, Qfloor. cbn. intros H.
  rewrite <- (Z.opp_involutive n) at 1.
  rewrite Z.quot_opp_l by lia. f_equal.
  apply Z.quot_div_nonneg; lia.
Qed.

Lemma Qtrunc_Z (z : Z) : Qtrunc (inject_Z z) = z.
Proof. unfold Qtrunc. cbn. apply Z.quot_1_r. Qed.

(** Discarding the fraction is monotone. *)
Lemma Qtrunc_le (x y : Q) : (x <= y)%Q -> Qtrunc x <= Qtrunc y.
Proof.
  intros Hxy.
  destruct (Qlt_le_dec x 0) as [Hx | Hx]; destruct (Qlt_le_dec y 0) as [Hy | Hy].
  - rewrite !Qtrunc_nonpos by lra. now apply Qceiling_resp_le.
  - rewrite (Qtrunc_nonpos x), (Qtrunc_nonneg y) by lra.
    apply Z.le_trans with 0.
    + rewrite <- (Qceiling_Z 0). apply Qceiling_resp_le.
      change (inject_Z 0) with 0%Q. lra.
    + rewrite <- (Qfloor_Z 0). now apply Qfloor_resp_le.
  - lra.
  - rewrite !Qtrunc_nonneg by lra. now apply Qfloor_resp_le.
Qed.

Lemma Qdiv_le_compat (x y c : Q) : (0 < c)%Q -> (x <= y)%Q -> (x / c <= y / c)%Q.
Proof.
  intros Hc Hxy. apply Qmult_le_compat_r; trivial.
  now apply Qlt_le_weak, Qinv_lt_0_compat.
Qed.

Lemma checked_in_range (z : Z) : INT_MIN <= z <= INT_MAX -> checked z = Some z.
Proof.
  intros H. unfold checked, in_int.
  destruct (Z.leb_spec INT_MIN z), (Z.leb_spec z INT_MAX); trivial; lia.
Qed.

(** ** The needle mapping *)

Lemma dac_counts_range (x : float) :
  (- (127) <= dac_counts x)%Q /\ (dac_counts x <= 127)%Q.
Proof.
  unfold dac_counts.
  destruct (constrain_float_range x (- TIDE_SCALE_FT)%Q TIDE_SCALE_FT) as [Hlo Hhi];
    [unfold TIDE_SCALE_FT; lra |].
  set (c := constrain fltb x (- TIDE_SCALE_FT)%Q TIDE_SCALE_FT) in *.
  assert (Hn : (-(1) <= fdiv c TIDE_SCALE_FT)%Q /\ (fdiv c TIDE_SCALE_FT <= 1)%Q).
  { unfold fdiv. split.
    - apply Qle_trans with (round32 (- TIDE_SCALE_FT / TIDE_SCALE_FT)).
      + now vm_compute.
      + apply round32_le, Qdiv_le_compat; [reflexivity | exact Hlo].
    - apply Qle_trans with (round32 (TIDE_SCALE_FT / TIDE_SCALE_FT)).
      + apply round32_le, Qdiv_le_compat; [reflexivity | exact Hhi].
      + now vm_compute. }
  destruct Hn as [Hn1 Hn2]. unfold fmul. split.
  - apply Qle_trans with (round32 (-(1) * 127)).
    + now vm_compute.
    + apply round32_le. lra.
  - apply Qle_trans with (round32 (1 * 127)).
    + apply round32_le. lra.
    + now vm_compute.
Qed.

Lemma dac_counts_le (x y : float) : (x <= y)%Q -> (dac_counts x <= dac_counts y)%Q.
Proof.
  intros Hxy. unfold dac_counts, fmul, fdiv.
  pose proof (constrain_float_le x y (- TIDE_SCALE_FT)%Q TIDE_SCALE_FT
                ltac:(unfold TIDE_SCALE_FT; lra) Hxy) as Hc.
  apply round32_le.
  apply Qmult_le_compat_r; [| lra].
  apply round32_le, Qdiv_le_compat; [reflexivity | exact Hc].
Qed.

Lemma Qtrunc_dac_counts_range (x : float) : -127 <= Qtrunc (dac_counts x) <= 127.
Proof.
  destruct (dac_counts_range x) as [Hlo Hhi]. split.
  - rewrite <- (Qtrunc_Z (-127)). now apply Qtrunc_le.
  - rewrite <- (Qtrunc_Z 127). now apply Qtrunc_le.
Qed.

(** The conversions in [tideToDAC] are always defined, and neither the final
    [constrain] nor the narrowing to [uint8_t] changes the value. *)
Lemma tideToDAC_eq (x : float) :
  tideToDAC x = Some (DAC_CENTER + Qtrunc (dac_counts x)).
Proof.
  pose proof (Qtrunc_dac_counts_range x) as Hr.
  unfold tideToDAC. unfold dac_counts in *.
  set (m := fmul _ 127%Q) in *.
  unfold float_to_int, int_add.
  rewrite checked_in_range by (unfold INT_MIN, INT_MAX; lia).
  rewrite checked_in_range by (unfold INT_MIN, INT_MAX, DAC_CENTER; lia).
  f_equal. unfold constrain, to_uint8, DAC_CENTER in *.
  destruct (Z.ltb_spec (128 + Qtrunc m) 0); [lia |].
  destruct (Z.ltb_spec 255 (128 + Qtrunc m)); [lia |].
  apply Z.mod_small. lia.
Qed.

Lemma constrain_float_above (x lo hi : float) :
  (lo <= hi)%Q -> (hi < x)%Q -> constrain fltb x lo hi = hi.
Proof.
  intros H Hx. unfold constrain.
  destruct (fltb x lo) eqn:E1; fltb_facts; [lra |].
  destruct (fltb hi x) eqn:E2; fltb_facts; [reflexivity | lra].
Qed.

Lemma constrain_float_below (x lo hi : float) :
  (x < lo)%Q -> constrain fltb x lo hi = lo.
Proof.
  intros Hx. unfold constrain.
  destruct (fltb x lo) eqn:E1; fltb_facts; [reflexivity | lra].
Qed.

(** At the lower end of the scale the code is 1: 127 counts below the
    center 128. *)
Lemma tideToDAC_lower_end : tideToDAC (- TIDE_SCALE_FT)%Q = Some 1.
Proof. reflexivity. Qed.

(** C1 (as stated): the code at [-TIDE_SCALE_FT] is not 0, and the counts are
    truncated, not rounded to the nearest integer: half a foot above mean sea
    level gives 7.9375 counts and the code 135, where rounding gives 136. *)
Lemma tideToDAC_claimed_codes_fail :
  tideToDAC (- TIDE_SCALE_FT)%Q <> Some 0 /\
  tideToDAC (1 # 2) <> Some (DAC_CENTER + rne ((1 # 2) / TIDE_SCALE_FT * 127)).
Proof. split; vm_compute; discriminate. Qed.

(** C1 (amended): [tideToDAC 0 = 128] and [tideToDAC TIDE_SCALE_FT = 255];
    for every input the result is [128 + trunc (normalized * 127)], the
    product taken after clamping the input to the scale and truncated toward
    zero, with no effect of the final clamp; every input above the scale
    gives 255 and every input below it gives the code of the lower end. *)
Theorem tideToDAC_fixed_points_and_clamp :
  tideToDAC 0%Q = Some 128 /\
  tideToDAC TIDE_SCALE_FT = Some 255 /\
  (forall x, tideToDAC x = Some (DAC_CENTER + Qtrunc (dac_counts x))) /\
  (forall x, (TIDE_SCALE_FT < x)%Q -> tideToDAC x = Some 255) /\
  (forall x, (x < - TIDE_SCALE_FT)%Q -> tideToDAC x = tideToDAC (- TIDE_SCALE_FT)%Q).
Proof.
  split; [reflexivity |]. split; [reflexivity |].
  split; [exact tideToDAC_eq |]. split.
  - intros x Hx. rewrite tideToDAC_eq. unfold dac_counts.
    rewrite constrain_float_above; [reflexivity | now vm_compute | exact Hx].
  - intros x Hx. rewrite !tideToDAC_eq. unfold dac_counts.
    rewrite (constrain_float_below x) by exact Hx.
    reflexivity.
Qed.

Lemma tideToDAC_fixed_points_and_clamp_witness :
  (TIDE_SCALE_FT < 10)%Q /\ tideToDAC 10%Q = Some 255.
Proof.
  split; [reflexivity |].
  apply (proj1 (proj2 (proj2 (proj2 tideToDAC_fixed_points_and_clamp))) 10%Q).
  reflexivity.
Defined.

(** C7: [tideToDAC] is monotone non-decreasing over all inputs: through the
    clamp, the two rounded float operations, the truncation and the final
    clamp. *)
Theorem tideToDAC_monotone (x y : float) :
  (x <= y)%Q ->
  exists a b, tideToDAC x = Some a /\ tideToDAC y = Some b /\ a <= b.
Proof.
  intros Hxy.
  exists (DAC_CENTER + Qtrunc (dac_counts x)), (DAC_CENTER + Qtrunc (dac_counts y)).
  split; [apply tideToDAC_eq |]. split; [apply tideToDAC_eq |].
  apply Z.add_le_mono_l, Qtrunc_le, dac_counts_le, Hxy.
Qed.

Lemma tideToDAC_monotone_witness :
  exists a b, tideToDAC (-(3))%Q = Some a /\ tideToDAC (5 # 2) = Some b /\ a <= b.
Proof.
  apply (tideToDAC_monotone (-(3))%Q (5 # 2)).
  discriminate.
Defined.

(** ** The compass mapping *)

Lemma wind_quotient_le (x y : float) :
  (x <= y)%Q -> (wind_quotient x <= wind_quotient y)%Q.
Proof.
  intros Hxy. unfold wind_quotient, fdiv, fadd.
  apply round32_le, Qdiv_le_compat; [reflexivity |].
  apply round32_le. lra.
Qed.

Lemma wind_quotient_nonneg (deg : float) :
  (- (45 # 2) <= deg)%Q -> (0 <= wind_quotient deg)%Q.
Proof.
  intros H. apply Qle_trans with (wind_quotient (- (45 # 2))%Q).
  - now vm_compute.
  - now apply wind_quotient_le.
Qed.

Lemma windDirection_idx_eq (deg : float) :
  INT_MIN <= Qtrunc (wind_quotient deg) <= INT_MAX ->
  windDirection_idx deg = Some (Z.rem (Qtrunc (wind_quotient deg)) 8).
Proof.
  intros H. unfold windDirection_idx. fold (wind_quotient deg).
  unfold float_to_int. now rewrite checked_in_range.
Qed.

Lemma dirs_lookup (idx : Z) :
  0 <= idx <= 7 -> exists s, nth_error dirs (Z.to_nat idx) = Some s.
Proof.
  intros H.
  destruct (nth_error dirs (Z.to_nat idx)) as [s |] eqn:E; [now exists s |].
  apply nth_error_None in E. cbn in E. lia.
Qed.

(** C9 (as stated): a direction of 2^37 degrees is above -22.5, but the
    quotient, about 3.05e9, does not fit [int], so the conversion has no
    defined result and no index in [0, 7] is computed. *)
Lemma windDirection_idx_large_undefined :
  (- (45 # 2) <= inject_Z (2 ^ 37))%Q /\
  ~ (exists idx, windDirection_idx (inject_Z (2 ^ 37)) = Some idx /\ 0 <= idx <= 7).
Proof.
  split; [now vm_compute |].
  intros [idx [H _]]. vm_compute in H. discriminate.
Qed.

(** C9 (amended): for every direction [deg >= -22.5] whose quotient
    [(deg + 22.5) / 45] truncates to a value of type [int], the index lies in
    [0, 7] and the lookup in the eight-entry table is in bounds; this holds
    for all directions up to 2^36 degrees, which covers 0 to 360.  The lower
    bound is needed: -100 degrees gives the index -1, outside the table. *)
Theorem windDirection_idx_in_bounds :
  (forall deg : float,
      (- (45 # 2) <= deg)%Q ->
      Qtrunc (wind_quotient deg) <= INT_MAX ->
      exists idx s,
        windDirection_idx deg = Some idx /\ 0 <= idx <= 7 /\
        windDirection deg = Some s) /\
  (forall deg : float,
      (- (45 # 2) <= deg)%Q -> (deg <= inject_Z (2 ^ 36))%Q ->
      Qtrunc (wind_quotient deg) <= INT_MAX) /\
  windDirection_idx (- (100))%Q = Some (-1) /\
  windDirection (- (100))%Q = None.
Proof.
  split; [| split; [| split; reflexivity]].
  - intros deg Hlo Hmax.
    assert (H0 : 0 <= Qtrunc (wind_quotient deg)).
    { rewrite <- (Qtrunc_Z 0). apply Qtrunc_le.
      now apply wind_quotient_nonneg. }
    pose proof (Z.rem_bound_pos (Qtrunc (wind_quotient deg)) 8 H0 ltac:(lia)) as Hr.
    destruct (dirs_lookup (Z.rem (Qtrunc (wind_quotient deg)) 8) ltac:(lia)) as [s Hs].
    exists (Z.rem (Qtrunc (wind_quotient deg)) 8), s.
    assert (E : windDirection_idx deg = Some (Z.rem (Qtrunc (wind_quotient deg)) 8)).
    { apply windDirection_idx_eq. unfold INT_MIN. lia. }
    split; [exact E |]. split; [lia |].
    unfold windDirection. rewrite E.
    destruct (Z.ltb_spec (Z.rem (Qtrunc (wind_quotient deg)) 8) 0); [lia | exact Hs].
  - intros deg _ Hhi.
    apply Z.le_trans with (Qtrunc (wind_quotient (inject_Z (2 ^ 36)))).
    + now apply Qtrunc_le, wind_quotient_le.
    + now vm_compute.
Qed.

Lemma windDirection_idx_in_bounds_witness :
  exists idx s,
    windDirection_idx 270%Q = Some idx /\ 0 <= idx <= 7 /\
    windDirection 270%Q = Some s.
Proof.
  apply (proj1 windDirection_idx_in_bounds 270%Q).
  - now vm_compute.
  - now vm_compute.
Defined.

(** Whole degrees from 0 to 360, checked one by one. *)
Lemma sector_agrees_upto_360 : forallb sector_agrees (seq 0 361) = true.
Proof. vm_compute. reflexivity. Qed.

Lemma windDirection_idx_whole_degrees (d : Z) :
  0 <= d <= 360 -> windDirection_idx (inject_Z d) = Some (spec_sector (inject_Z d)).
Proof.
  intros H.
  pose proof sector_agrees_upto_360 as Hall.
  rewrite forallb_forall in Hall.
  specialize (Hall (Z.to_nat d)).
  rewrite in_seq in Hall. specialize (Hall ltac:(lia)).
  unfold sector_agrees in Hall. rewrite Z2Nat.id in Hall by lia.
  destruct (windDirection_idx (inject_Z d)) as [idx |]; [| discriminate].
  apply Z.eqb_eq in Hall. now subst.
Qed.

(** Sector 0 spans the directions around north. *)
Lemma windDirection_north (deg : float) :
  (- (22) <= deg)%Q -> (deg <= 22)%Q -> windDirection deg = Some "N"%string.
Proof.
  intros Hlo Hhi.
  assert (H0 : 0 <= Qtrunc (wind_quotient deg)).
  { rewrite <- (Qtrunc_Z 0). apply Qtrunc_le, wind_quotient_nonneg. lra. }
  assert (H1 : Qtrunc (wind_quotient deg) <= 0).
  { apply Z.le_trans with (Qtrunc (wind_quotient 22%Q)).
    - now apply Qtrunc_le, wind_quotient_le.
    - now vm_compute. }
  unfold windDirection.
  rewrite windDirection_idx_eq by (unfold INT_MIN, INT_MAX; lia).
  replace (Qtrunc (wind_quotient deg)) with 0 by lia.
  reflexivity.
Qed.

(** C6 (as stated): 44 degrees is mapped to "NE", not to "N". *)
Lemma windDirection_44_is_not_N : windDirection 44%Q <> Some "N"%string.
Proof. vm_compute. discriminate. Qed.

(** C6 (amended): [windDirection] adds 22.5, divides by 45, discards the
    fraction and reduces modulo 8, which for every whole degree from 0 to 360
    is [round(deg / 45) mod 8]; sector 0 ("N") is centered on 0 degrees.  It
    maps 0 to "N", 44 to "NE", 46 to "NE" and 350 to "N". *)
Theorem windDirection_sectors :
  (forall d : Z, 0 <= d <= 360 ->
     windDirection_idx (inject_Z d) = Some (spec_sector (inject_Z d)) /\
     windDirection (inject_Z d) =
       nth_error dirs (Z.to_nat (spec_sector (inject_Z d)))) /\
  (forall deg : float, (- (22) <= deg)%Q -> (deg <= 22)%Q ->
     windDirection deg = Some "N"%string) /\
  windDirection 0%Q = Some "N"%string /\
  windDirection 44%Q = Some "NE"%string /\
  windDirection 46%Q = Some "NE"%string /\
  windDirection 350%Q = Some "N"%string.
Proof.
  split; [| split; [exact windDirection_north | repeat split; reflexivity]].
  intros d H.
  pose proof (windDirection_idx_whole_degrees d H) as E.
  split; [exact E |].
  unfold windDirection. rewrite E.
  assert (Hs : 0 <= spec_sector (inject_Z d) < 8)
    by (unfold spec_sector; apply Z.mod_pos_bound; lia).
  destruct (Z.ltb_spec (spec_sector (inject_Z d)) 0); [lia | reflexivity].
Qed.

Lemma windDirection_sectors_witness :
  windDirection_idx (inject_Z 225) = Some (spec_sector (inject_Z 225)) /\
  windDirection (inject_Z 225) =
    nth_error dirs (Z.to_nat (spec_sector (inject_Z 225))).
Proof.
  apply (proj1 windDirection_sectors 225). lia.
Defined.

(** ** The tide service *)

Lemma fetchTide_fetchedAt (w : TideWorld) (s : TideState.t) :
  TideState.fetchedAt (fetchTide w s) = nowString (tw_clock w).
Proof. reflexivity. Qed.

(** The search is a first match: [scan_predictions] is [find]. *)
Lemma scan_predictions_find (now : Z) (ps : list Prediction) (s : TideState.t) :
  scan_predictions now ps s =
  match find (qualifies now) ps with
  | Some p => take_event p s
  | None => s
  end.
Proof.
  induction ps as [| p rest IH]; cbn; [reflexivity |].
  unfold qualifies at 1. destruct (now <? pt p); [reflexivity | exact IH].
Qed.

Lemma find_none_all_past (now : Z) (ps : list Prediction) :
  Forall (fun p => pt p <= now) ps -> find (qualifies now) ps = None.
Proof.
  induction 1 as [| p rest Hp _ IH]; cbn; [reflexivity |].
  unfold qualifies at 1. destruct (Z.ltb_spec now (pt p)); [lia | exact IH].
Qed.

Lemma pt_timestamp (p : Prediction) : pt p = timestamp p + 28800.
Proof. unfold pt, mktime_of_gmt, GMT_OFFSET_SEC. lia. Qed.

(** An entry later than [now] passes the test of the search. *)
Lemma qualifies_future (now : Z) (p : Prediction) :
  now < timestamp p -> qualifies now p = true.
Proof.
  intros H. unfold qualifies. apply Z.ltb_lt. rewrite pt_timestamp. lia.
Qed.

Lemma find_first_accepted (now : Z) (ps : list Prediction) (p : Prediction) :
  find (qualifies now) ps = Some p ->
  exists before after,
    ps = (before ++ p :: after)%list /\
    Forall (fun q => qualifies now q = false) before /\ qualifies now p = true.
Proof.
  induction ps as [| q rest IH]; cbn; [discriminate |].
  destruct (qualifies now q) eqn:Hq; intros E.
  - injection E as <-. exists [], rest. repeat split; [constructor | exact Hq].
  - destruct (IH E) as (before & after & -> & Hb & Hp).
    exists (q :: before), after. repeat split; [constructor; assumption | exact Hp].
Qed.

Lemma sorted_after (before after : list Prediction) (p q : Prediction) :
  StronglySorted (fun a b => timestamp a <= timestamp b) (before ++ p :: after)%list ->
  In q after -> timestamp p <= timestamp q.
Proof.
  induction before as [| b before IH]; cbn; intros Hs Hin;
    apply StronglySorted_inv in Hs.
  - destruct Hs as [_ Hall]. rewrite Forall_forall in Hall. now apply Hall.
  - destruct Hs as [Hs _]. now apply IH.
Qed.

(** When the test turns every past entry of the list down, the entry taken
    is the first one after [now]. *)
Lemma find_first_future (now : Z) (ps : list Prediction) (p : Prediction) :
  Forall (fun q => timestamp q <= now -> qualifies now q = false) ps ->
  find (qualifies now) ps = Some p ->
  now < timestamp p /\
  (exists before after,
     ps = (before ++ p :: after)%list /\
     Forall (fun q => timestamp q <= now) before) /\
  (StronglySorted (fun a b => timestamp a <= timestamp b) ps ->
   forall q, In q ps -> now < timestamp q -> timestamp p <= timestamp q).
Proof.
  intros Hpast Hf.
  destruct (find_first_accepted now ps p Hf) as (before & after & E & Hb & Hp).
  subst ps. rewrite Forall_forall in Hpast.
  assert (Hnow : now < timestamp p).
  { destruct (Z.lt_ge_cases now (timestamp p)) as [H | H]; [exact H |].
    rewrite (Hpast p) in Hp; [discriminate | | lia].
    apply in_or_app. right. now left. }
  assert (Hbefore : Forall (fun q => timestamp q <= now) before).
  { rewrite Forall_forall in *. intros q Hq.
    destruct (Z.lt_ge_cases now (timestamp q)) as [H | H]; [| lia].
    specialize (Hb q Hq). cbv beta in Hb.
    rewrite (qualifies_future now q H) in Hb. discriminate. }
  split; [exact Hnow |]. split; [now exists before, after |].
  intros Hs q Hin Hq.
  apply in_app_or in Hin. destruct Hin as [Hin | [<- | Hin]].
  - rewrite Forall_forall in Hbefore. specialize (Hbefore q Hin). lia.
  - lia.
  - now apply (sorted_after before after).
Qed.

(** C2 (as stated): of two predictions later than [now], given with the
    later one first, the search takes the later one, the +5h high, although
    the +2h low qualifies and is earlier; in time order it takes the +2h low,
    so the result depends on the order of the list.  On the specification's
    own list, in time order, it takes the high tide one hour before [now]
    (its time, read as local time, counts as seven hours ahead), not the +2h
    low. *)
Lemma scan_predictions_depends_on_order :
  Permutation future_pair future_pair_swapped /\
  next_event (scan_predictions 0 future_pair TideState.init)
    = ("Low", 5 # 4, "02:00 UTC")%string /\
  next_event (scan_predictions 0 future_pair_swapped TideState.init)
    = ("High", 63 # 8, "05:00 UTC")%string /\
  next_event (scan_predictions 0 example_predictions TideState.init)
    = ("High", 33 # 4, "23:00 UTC")%string.
Proof.
  split; [apply perm_swap |]. repeat split.
Qed.

(** C2 (amended): for every prediction list and every snapshot [now] the
    search goes through the list in order and stops at the first entry its
    test accepts, the entries before it having been turned down; every entry
    whose timestamp is strictly later than [now] is accepted.  Provided the
    test turns down every entry of the list that is at or before [now], the
    entry taken is the first one in list order whose timestamp is strictly
    later than [now], and in a chronologically ordered list it has the
    earliest such timestamp. *)
Theorem scan_predictions_first_accepted
  (now : Z) (ps : list Prediction) (s : TideState.t) :
  (scan_predictions now ps s =
   match find (qualifies now) ps with
   | Some p => take_event p s
   | None => s
   end) /\
  (forall p, find (qualifies now) ps = Some p ->
     exists before after,
       ps = (before ++ p :: after)%list /\
       Forall (fun q => qualifies now q = false) before /\
       qualifies now p = true) /\
  (forall p, now < timestamp p -> qualifies now p = true) /\
  (Forall (fun q => timestamp q <= now -> qualifies now q = false) ps ->
   forall p, find (qualifies now) ps = Some p ->
     now < timestamp p /\
     (exists before after,
        ps = (before ++ p :: after)%list /\
        Forall (fun q => timestamp q <= now) before) /\
     (StronglySorted (fun a b => timestamp a <= timestamp b) ps ->
      forall q, In q ps -> now < timestamp q -> timestamp p <= timestamp q)).
Proof.
  split; [apply scan_predictions_find |].
  split; [apply find_first_accepted |].
  split; [apply qualifies_future |].
  intros Hpast p Hp. now apply find_first_future.
Qed.

Lemma scan_predictions_first_accepted_witness :
  0 < timestamp (mk_pred (mk_tm 2 0 0) 7200 "L" (5 # 4)) /\
  (exists before after,
     old_then_future
       = (before ++ mk_pred (mk_tm 2 0 0) 7200 "L" (5 # 4) :: after)%list /\
     Forall (fun q => timestamp q <= 0) before) /\
  (StronglySorted (fun a b => timestamp a <= timestamp b) old_then_future ->
   forall q, In q old_then_future -> 0 < timestamp q ->
     timestamp (mk_pred (mk_tm 2 0 0) 7200 "L" (5 # 4)) <= timestamp q).
Proof.
  apply (proj2 (proj2 (proj2 (scan_predictions_first_accepted 0 old_then_future
                                TideState.init)))).
  - repeat constructor; cbn; intros H; try reflexivity; lia.
  - reflexivity.
Defined.

Lemma scan_predictions_level (now : Z) (ps : list Prediction) (s : TideState.t) :
  level (scan_predictions now ps s) = level s /\
  TideState.valid (scan_predictions now ps s) = TideState.valid s.
Proof.
  rewrite scan_predictions_find.
  destruct (find (qualifies now) ps); split; reflexivity.
Qed.

Lemma scan_predictions_next_event (now : Z) (ps : list Prediction) (s : TideState.t) :
  next_event (scan_predictions now ps s) =
  match find (qualifies now) ps with
  | Some p => event_fields p
  | None => next_event s
  end.
Proof.
  rewrite scan_predictions_find.
  destruct (find (qualifies now) ps); reflexivity.
Qed.

Lemma last_nonempty (A : Type) (l : list A) (d d' : A) :
  l <> [] -> last l d = last l d'.
Proof.
  induction l as [| a [| b l] IH]; intros H; [congruence | reflexivity |].
  change (last (b :: l) d = last (b :: l) d'). apply IH. discriminate.
Qed.

(** [fetchTide] is its two request blocks, one after the other, and the stamp. *)
Lemma fetchTide_steps (w : TideWorld) (s : TideState.t) :
  fetchTide w s =
  TideState.set_fetchedAt (nowString (tw_clock w))
    (event_step (tw_predictions w) (tw_now w) (level_step (tw_level w) s)).
Proof. reflexivity. Qed.

Lemma level_step_ok (lv : WaterLevelReply) (s : TideState.t) :
  level_ok lv ->
  level_step lv s =
  TideState.set_level (last (wl_data lv) 0%Q)
    (fsub (last (wl_data lv) 0%Q) NOAA_MSL_FT) s.
Proof.
  intros (Hc & He & Hd). unfold level_step.
  rewrite Hc, He. cbn.
  destruct (wl_data lv) as [| e l] eqn:E; [congruence |].
  now rewrite (last_nonempty _ (e :: l) e 0%Q).
Qed.

Lemma level_step_failed (lv : WaterLevelReply) (s : TideState.t) :
  level_failed lv -> level_step lv s = s.
Proof.
  intros [H | [H | H]]; unfold level_step.
  - destruct (Z.eqb_spec (wl_code lv) 200); [contradiction | reflexivity].
  - rewrite H. now destruct (wl_code lv =? 200).
  - rewrite H. now destruct (wl_code lv =? 200), (wl_err lv).
Qed.

Lemma level_ok_or_failed (lv : WaterLevelReply) : level_ok lv \/ level_failed lv.
Proof.
  unfold level_ok, level_failed.
  destruct (Z.eq_dec (wl_code lv) 200); [| now auto].
  destruct (wl_err lv); [now auto |].
  destruct (wl_data lv); [now auto |].
  left. repeat split; trivial. discriminate.
Qed.

Lemma level_ok_not_failed (lv : WaterLevelReply) : level_ok lv -> ~ level_failed lv.
Proof. intros (Hc & He & Hd) [H | [H | H]]; congruence. Qed.

Lemma event_step_level (pr : PredictionsReply) (now : Z) (s : TideState.t) :
  level (event_step pr now s) = level s /\
  TideState.valid (event_step pr now s) = TideState.valid s.
Proof.
  unfold event_step.
  destruct (pr_code pr =? 200), (pr_code2 pr =? 200);
    try (split; reflexivity).
  apply scan_predictions_level.
Qed.

Lemma event_step_ok (pr : PredictionsReply) (now : Z) (s : TideState.t) :
  predictions_ok pr ->
  event_step pr now s = scan_predictions now (pr_predictions pr) s.
Proof. intros [H1 H2]. unfold event_step. now rewrite H1, H2. Qed.

Lemma event_step_failed (pr : PredictionsReply) (now : Z) (s : TideState.t) :
  predictions_failed pr -> event_step pr now s = s.
Proof.
  intros [H | H]; unfold event_step.
  - destruct (Z.eqb_spec (pr_code pr) 200); [contradiction | reflexivity].
  - destruct (Z.eqb_spec (pr_code2 pr) 200); [contradiction |].
    now destruct (pr_code pr =? 200).
Qed.

Lemma event_step_all_past (pr : PredictionsReply) (now : Z) (s : TideState.t) :
  Forall (fun p => pt p <= now) (pr_predictions pr) ->
  event_step pr now s = s.
Proof.
  intros H. unfold event_step.
  rewrite scan_predictions_find, find_none_all_past by exact H.
  now destruct (pr_code pr =? 200), (pr_code2 pr =? 200).
Qed.

Lemma map_toFloat_last (readings : list (option float)) :
  last (map toFloat (readings ++ [None])) 0%Q = 0%Q.
Proof.
  rewrite map_app. change (map toFloat [None]) with [0%Q]. apply last_last.
Qed.

Lemma fetchTide_next_event_kept (w : TideWorld) (s : TideState.t) :
  Forall (fun p => pt p <= tw_now w) (pr_predictions (tw_predictions w)) ->
  next_event (fetchTide w s) = next_event s.
Proof.
  intros H. rewrite fetchTide_steps, event_step_all_past by exact H.
  destruct (level_ok_or_failed (tw_level w)) as [Hl | Hl].
  - now rewrite level_step_ok.
  - now rewrite level_step_failed.
Qed.

(** C8 (the code at the failing input): at noon the only prediction is the
    high tide of 05:00 GMT, seven hours earlier, so every timestamp is at or
    before [now]; the refresh nevertheless takes it as the next event, where
    the fields held "--" before.  [mktime] reads the GMT fields as local time,
    eight hours west, and the offset is not taken off again.  The next-event
    fields are kept when the list is empty, and when every timestamp is at
    least eight hours old. *)
Theorem fetchTide_takes_recent_past_event :
  Forall (fun p => timestamp p <= tw_now recent_past)
         (pr_predictions (tw_predictions recent_past)) /\
  next_event TideState.init = ("--", 0%Q, "--")%string /\
  next_event (fetchTide recent_past TideState.init)
    = ("High", 33 # 4, "05:00 UTC")%string /\
  (forall w s, pr_predictions (tw_predictions w) = [] ->
     next_event (fetchTide w s) = next_event s) /\
  (forall w s,
     Forall (fun p => timestamp p <= tw_now w + GMT_OFFSET_SEC)
            (pr_predictions (tw_predictions w)) ->
     next_event (fetchTide w s) = next_event s).
Proof.
  split; [repeat constructor; cbn; lia |].
  split; [reflexivity |]. split; [reflexivity |]. split.
  - intros w s E. apply fetchTide_next_event_kept. rewrite E. constructor.
  - intros w s H. apply fetchTide_next_event_kept.
    eapply Forall_impl; [| exact H].
    intros p Hp. cbv beta in Hp. rewrite pt_timestamp.
    unfold GMT_OFFSET_SEC in Hp. lia.
Qed.

(** C3 (as stated): a reply whose last data element has no usable [v] is a
    malformed payload, yet the level group does not keep its values: after a
    reading of 9.375 ft, the refresh stores the level 0. *)
Lemma fetchTide_unreadable_level_overwrites :
  TideState.currentFt (fetchTide level_only TideState.init) = (75 # 8)%Q /\
  TideState.currentFt
    (fetchTide level_unreadable (fetchTide level_only TideState.init)) = 0%Q /\
  level (fetchTide level_unreadable (fetchTide level_only TideState.init))
    <> level (fetchTide level_only TideState.init).
Proof.
  split; [reflexivity |]. split; [reflexivity |].
  intros E. apply (f_equal fst) in E. vm_compute in E. discriminate.
Qed.

(** C3 (amended): the two groups of a refresh succeed or fail independently,
    each as a whole.  If the water-level request fails by a status other than
    200, by a body that is not JSON or by an empty data array, and the
    predictions arrive, the level group and [valid] keep their values and the
    three next-event fields are written together from the entry the search
    takes: "High" for type "H" and "Low" otherwise, the entry's level, and
    its time as HH:MM UTC (all three kept when the search takes none).  If
    the water level arrives and a predictions request fails, both level
    fields are written from the last reading and the next-event group is
    kept.  A last data element whose [v] is missing or not a number is no
    failure: the level group is written with the reading 0. *)
Theorem fetchTide_groups_independent (w : TideWorld) (s : TideState.t) :
  (level_failed (tw_level w) -> predictions_ok (tw_predictions w) ->
     level (fetchTide w s) = level s /\
     TideState.valid (fetchTide w s) = TideState.valid s /\
     next_event (fetchTide w s) =
       match find (qualifies (tw_now w)) (pr_predictions (tw_predictions w)) with
       | Some p => event_fields p
       | None => next_event s
       end) /\
  (level_ok (tw_level w) -> predictions_failed (tw_predictions w) ->
     level (fetchTide w s) =
       (last (wl_data (tw_level w)) 0%Q,
        fsub (last (wl_data (tw_level w)) 0%Q) NOAA_MSL_FT) /\
     TideState.valid (fetchTide w s) = true /\
     next_event (fetchTide w s) = next_event s) /\
  (forall readings,
     wl_code (tw_level w) = 200 -> wl_err (tw_level w) = false ->
     wl_data (tw_level w) = map toFloat (readings ++ [None]) ->
     level (fetchTide w s) = (0%Q, fsub 0%Q NOAA_MSL_FT) /\
     TideState.valid (fetchTide w s) = true).
Proof.
  split; [| split].
  - intros Hl Hp. rewrite fetchTide_steps, level_step_failed by exact Hl.
    rewrite event_step_ok by exact Hp.
    destruct (scan_predictions_level (tw_now w) (pr_predictions (tw_predictions w)) s)
      as [Hlv Hv].
    repeat split; [exact Hlv | exact Hv |].
    apply scan_predictions_next_event.
  - intros Hl Hp. rewrite fetchTide_steps, level_step_ok by exact Hl.
    rewrite event_step_failed by exact Hp.
    repeat split.
  - intros readings Hc He Hd.
    assert (Hl : level_ok (tw_level w)).
    { repeat split; trivial. rewrite Hd, map_app.
      intros E. apply (f_equal (@List.length float)) in E.
      rewrite length_app in E. cbn in E. lia. }
    rewrite fetchTide_steps, level_step_ok by exact Hl.
    rewrite Hd, map_toFloat_last.
    set (s1 := TideState.set_level _ _ s).
    destruct (event_step_level (tw_predictions w) (tw_now w) s1) as [Hlv Hv].
    split.
    + change (level (event_step (tw_predictions w) (tw_now w) s1) = level s1).
      exact Hlv.
    + change (TideState.valid (event_step (tw_predictions w) (tw_now w) s1)
              = TideState.valid s1).
      exact Hv.
Qed.

Lemma fetchTide_groups_independent_witness :
  (level (fetchTide events_only TideState.init) = level TideState.init /\
   TideState.valid (fetchTide events_only TideState.init) = false /\
   next_event (fetchTide events_only TideState.init)
     = event_fields (mk_pred (mk_tm 2 0 0) 7200 "L" (5 # 4))) /\
  (level (fetchTide level_only TideState.init) =
     ((75 # 8)%Q, fsub (75 # 8) NOAA_MSL_FT) /\
   TideState.valid (fetchTide level_only TideState.init) = true /\
   next_event (fetchTide level_only TideState.init) = next_event TideState.init) /\
  (level (fetchTide level_unreadable TideState.init)
     = (0%Q, fsub 0%Q NOAA_MSL_FT) /\
   TideState.valid (fetchTide level_unreadable TideState.init) = true).
Proof.
  split; [| split].
  - apply (proj1 (fetchTide_groups_independent events_only TideState.init)).
    + left. cbn. lia.
    + split; reflexivity.
  - apply (proj1 (proj2 (fetchTide_groups_independent level_only TideState.init))).
    + repeat split. discriminate.
    + left. cbn. lia.
  - apply (proj2 (proj2 (fetchTide_groups_independent level_unreadable
                           TideState.init)) [Some (73 # 8)%Q]); reflexivity.
Defined.

(** ** Validity of the tide state *)

Lemma level_fields (s : TideState.t) (a b : float) :
  level s = (a, b) -> TideState.currentFt s = a /\ TideState.deltaMSL s = b.
Proof. unfold level. intros H. now injection H. Qed.

Lemma fetchTide_level_ok (w : TideWorld) (s : TideState.t) :
  level_ok (tw_level w) ->
  level (fetchTide w s) =
    (last (wl_data (tw_level w)) 0%Q,
     fsub (last (wl_data (tw_level w)) 0%Q) NOAA_MSL_FT) /\
  TideState.valid (fetchTide w s) = true.
Proof.
  intros Hl. rewrite fetchTide_steps, level_step_ok by exact Hl.
  set (s1 := TideState.set_level _ _ s).
  destruct (event_step_level (tw_predictions w) (tw_now w) s1) as [Hlv Hv].
  split.
  - change (level (event_step (tw_predictions w) (tw_now w) s1) = level s1).
    exact Hlv.
  - change (TideState.valid (event_step (tw_predictions w) (tw_now w) s1)
            = TideState.valid s1).
    exact Hv.
Qed.

Lemma fetchTide_valid_ok (w : TideWorld) (s : TideState.t) :
  level_ok (tw_level w) ->
  TideState.valid (fetchTide w s) = true /\
  TideState.deltaMSL (fetchTide w s)
    = fsub (TideState.currentFt (fetchTide w s)) NOAA_MSL_FT.
Proof.
  intros Hl. destruct (fetchTide_level_ok w s Hl) as [Hlv Hv].
  split; [exact Hv |].
  apply level_fields in Hlv. destruct Hlv as [Hc Hd].
  rewrite Hd, Hc. reflexivity.
Qed.

Lemma fetchTide_level_failed (w : TideWorld) (s : TideState.t) :
  level_failed (tw_level w) ->
  level (fetchTide w s) = level s /\
  TideState.valid (fetchTide w s) = TideState.valid s.
Proof.
  intros Hl. rewrite fetchTide_steps, level_step_failed by exact Hl.
  apply (event_step_level (tw_predictions w) (tw_now w) s).
Qed.

Lemma fetchTide_valid_stays (w : TideWorld) (s : TideState.t) :
  TideState.valid s = true -> TideState.valid (fetchTide w s) = true.
Proof.
  intros Hv. destruct (level_ok_or_failed (tw_level w)) as [Hl | Hl].
  - apply fetchTide_valid_ok, Hl.
  - now rewrite (proj2 (fetchTide_level_failed w s Hl)).
Qed.

Lemma fetchTide_level_consistent (w : TideWorld) (s : TideState.t) :
  level_consistent s -> level_consistent (fetchTide w s).
Proof.
  intros Hs Hv. destruct (level_ok_or_failed (tw_level w)) as [Hl | Hl].
  - apply fetchTide_valid_ok, Hl.
  - destruct (fetchTide_level_failed w s Hl) as [Hlv Hval].
    apply level_fields in Hlv. destruct Hlv as [Hc Hd].
    rewrite Hd, Hc. apply Hs. now rewrite <- Hval.
Qed.

Lemma fetch_cycles_level_consistent (ws : list TideWorld) (s : TideState.t) :
  level_consistent s -> level_consistent (fetch_cycles ws s).
Proof.
  revert s. induction ws as [| w ws IH]; intros s Hs; [exact Hs |].
  apply IH, fetchTide_level_consistent, Hs.
Qed.

Lemma fetch_cycles_valid_stays (ws : list TideWorld) (s : TideState.t) :
  TideState.valid s = true -> TideState.valid (fetch_cycles ws s) = true.
Proof.
  revert s. induction ws as [| w ws IH]; intros s Hs; [exact Hs |].
  apply IH, fetchTide_valid_stays, Hs.
Qed.

Lemma fetch_cycles_valid_iff (ws : list TideWorld) (s : TideState.t) :
  TideState.valid (fetch_cycles ws s) = true <->
  TideState.valid s = true \/ Exists (fun w => level_ok (tw_level w)) ws.
Proof.
  revert s. induction ws as [| w ws IH]; intros s.
  - cbn. split; [now left | intros [H | H]; [exact H | inversion H]].
  - change (fetch_cycles (w :: ws) s) with (fetch_cycles ws (fetchTide w s)).
    rewrite IH. split.
    + intros [H | H]; [| right; now apply Exists_cons_tl].
      destruct (level_ok_or_failed (tw_level w)) as [Hl | Hl].
      * right. now apply Exists_cons_hd.
      * left. now rewrite <- (proj2 (fetchTide_level_failed w s Hl)).
    + intros [H | H]; [left; now apply fetchTide_valid_stays |].
      inversion H as [? ? Hl | ? ? Hr]; subst.
      * left. apply fetchTide_valid_ok, Hl.
      * now right.
Qed.

(** C4: [valid] is false at boot; a cycle whose water-level request succeeds
    makes it true and leaves [deltaMSL] equal to the float difference
    [currentFt - NOAA_MSL_FT]; every cycle either keeps both level fields or
    writes both; no cycle turns [valid] from true to false; and over any run
    of cycles from boot, [valid] is true exactly when some water-level
    request has succeeded, and then [deltaMSL = currentFt - NOAA_MSL_FT]. *)
Theorem tide_valid_policy :
  TideState.valid TideState.init = false /\
  (forall w s, level_ok (tw_level w) ->
     TideState.valid (fetchTide w s) = true /\
     TideState.deltaMSL (fetchTide w s)
       = fsub (TideState.currentFt (fetchTide w s)) NOAA_MSL_FT) /\
  (forall w s,
     level (fetchTide w s) = level s \/
     level (fetchTide w s) =
       (last (wl_data (tw_level w)) 0%Q,
        fsub (last (wl_data (tw_level w)) 0%Q) NOAA_MSL_FT)) /\
  (forall w s, TideState.valid s = true -> TideState.valid (fetchTide w s) = true) /\
  (forall ws,
     (TideState.valid (fetch_cycles ws TideState.init) = true <->
      Exists (fun w => level_ok (tw_level w)) ws) /\
     (TideState.valid (fetch_cycles ws TideState.init) = true ->
      TideState.deltaMSL (fetch_cycles ws TideState.init)
        = fsub (TideState.currentFt (fetch_cycles ws TideState.init)) NOAA_MSL_FT)).
Proof.
  split; [reflexivity |].
  split; [exact fetchTide_valid_ok |].
  split; [| split; [exact fetchTide_valid_stays |]].
  - intros w s. destruct (level_ok_or_failed (tw_level w)) as [Hl | Hl].
    + right. apply fetchTide_level_ok, Hl.
    + left. apply fetchTide_level_failed, Hl.
  - intros ws. split.
    + rewrite fetch_cycles_valid_iff. cbn. split; [| now right].
      intros [H | H]; [discriminate | exact H].
    + apply fetch_cycles_level_consistent. intros H. discriminate.
Qed.

Lemma tide_valid_policy_witness :
  TideState.valid (fetchTide level_only TideState.init) = true /\
  TideState.deltaMSL (fetchTide level_only TideState.init)
    = fsub (TideState.currentFt (fetchTide level_only TideState.init)) NOAA_MSL_FT.
Proof.
  apply (proj1 (proj2 tide_valid_policy) level_only TideState.init).
  repeat split. discriminate.
Defined.

(** ** The weather service *)

(** C5 (as stated): a failed weather request still changes [fetchedAt]. *)
Lemma fetchWeather_failure_restamps :
  weather_failed (ww_reply weather_down) /\
  WeatherState.fetchedAt (fetchWeather weather_down WeatherState.init)
    <> WeatherState.fetchedAt WeatherState.init.
Proof.
  split; [left; cbn; lia |].
  vm_compute. discriminate.
Qed.

(** C5 (amended): every call of [fetchWeather] sets [fetchedAt] to the
    current time, whether the request succeeded or not; on a transport
    failure or a document that does not parse, all other weather fields keep
    their values. *)
Theorem fetchWeather_stamp_and_frame (w : WeatherWorld) (s : WeatherState.t) :
  WeatherState.fetchedAt (fetchWeather w s) = nowString (ww_clock w) /\
  (weather_failed (ww_reply w) -> conditions (fetchWeather w s) = conditions s).
Proof.
  split.
  - unfold fetchWeather.
    destruct (wr_code (ww_reply w) =? 200), (negb (wr_err (ww_reply w))); reflexivity.
  - intros [H | H]; unfold fetchWeather.
    + destruct (Z.eqb_spec (wr_code (ww_reply w)) 200); [contradiction | reflexivity].
    + rewrite H. now destruct (wr_code (ww_reply w) =? 200).
Qed.

Lemma fetchWeather_stamp_and_frame_witness :
  conditions (fetchWeather weather_down WeatherState.init)
    = conditions WeatherState.init.
Proof.
  apply (proj2 (fetchWeather_stamp_and_frame weather_down WeatherState.init)).
  left. cbn. lia.
Defined.

(** ** Setup and loop *)

Lemma needle_code_range (s : TideState.t) : 1 <= needle_code s <= 255.
Proof.
  unfold needle_code, DAC_CENTER.
  pose proof (Qtrunc_dac_counts_range (TideState.deltaMSL s)). lia.
Qed.

Lemma needle_to_tide_eq (d : Device) :
  needle_to_tide d = Some (dacWrite (needle_code (tideState d)) d).
Proof.
  unfold needle_to_tide. rewrite tideToDAC_eq. fold (needle_code (tideState d)).
  unfold setNeedle, to_uint8.
  rewrite Z.mod_small by (pose proof (needle_code_range (tideState d)); lia).
  reflexivity.
Qed.

Lemma loop_blocks (w : World) (d : Device) :
  loop w d =
  let d1 := after_fetches w d in
  if DISPLAY_INTERVAL_MS <=? elapsed (millis w) (lastNeedleUpdate d1) then
    let d2 := mk_dev (tideState d1) (weatherState d1) (lastTideFetch d1)
                     (lastWeatherFetch d1) (millis w) (dac d1) in
    if TideState.valid (tideState d2) then needle_to_tide d2 else Some d2
  else Some d1.
Proof. reflexivity. Qed.

Lemma after_fetches_fields (w : World) (d : Device) :
  tideState (after_fetches w d) = tide_after w d /\
  lastNeedleUpdate (after_fetches w d) = lastNeedleUpdate d /\
  dac (after_fetches w d) = dac d.
Proof.
  unfold after_fetches, tide_after.
  destruct (TIDE_INTERVAL_MS <=? elapsed (millis w) (lastTideFetch d));
    match goal with
    | |- context [WEATHER_INTERVAL_MS <=? ?e] => destruct (WEATHER_INTERVAL_MS <=? e)
    end; repeat split.
Qed.

(** One pass of [loop]: it always completes; the tide state is refreshed when
    the tide timer expired; the DAC is written, once and with the code of the
    current deviation, exactly when the needle timer expired and the tide
    state is valid. *)
Lemma loop_pass (w : World) (d : Device) :
  exists d',
    loop w d = Some d' /\
    tideState d' = tide_after w d /\
    dac d' =
      if needle_due w d && TideState.valid (tide_after w d)
      then needle_code (tide_after w d) :: dac d
      else dac d.
Proof.
  rewrite loop_blocks. cbv zeta.
  destruct (after_fetches_fields w d) as (Ht & Hn & Hd).
  unfold needle_due. rewrite Hn.
  destruct (DISPLAY_INTERVAL_MS <=? elapsed (millis w) (lastNeedleUpdate d)).
  - cbn [tideState andb]. rewrite Ht.
    destruct (TideState.valid (tide_after w d)) eqn:Hv.
    + rewrite needle_to_tide_eq. eexists. split; [reflexivity |].
      cbn [dacWrite tideState dac]. rewrite ?Ht, ?Hd. split; reflexivity.
    + eexists. split; [reflexivity |]. cbn [tideState dac].
      rewrite ?Ht, ?Hd. split; reflexivity.
  - eexists. split; [reflexivity |]. cbn [andb]. rewrite ?Ht, ?Hd.
    split; reflexivity.
Qed.


Lemma fetchTide_unset_level (w : TideWorld) (s : TideState.t) :
  unset_level s -> unset_level (fetchTide w s).
Proof.
  intros Hs Hv. destruct (level_ok_or_failed (tw_level w)) as [Hl | Hl].
  - rewrite (proj1 (fetchTide_valid_ok w s Hl)) in Hv. discriminate.
  - destruct (fetchTide_level_failed w s Hl) as [Hlv Hval].
    apply level_fields in Hlv. destruct Hlv as [_ Hd].
    rewrite Hd. apply Hs. now rewrite <- Hval.
Qed.

Lemma tide_after_unset_level (w : World) (d : Device) :
  unset_level (tideState d) -> unset_level (tide_after w d).
Proof.
  intros H. unfold tide_after.
  destruct (TIDE_INTERVAL_MS <=? elapsed (millis w) (lastTideFetch d)); trivial.
  now apply fetchTide_unset_level.
Qed.











(** * Further properties

    ** The needle mapping and the tide bar *)

Lemma Qfloor_unique (x : Q) (z : Z) :
  (inject_Z z <= x)%Q -> (x < inject_Z (z + 1))%Q -> Qfloor x = z.
Proof.
  intros Hlo Hhi.
  pose proof (Qfloor_resp_le _ _ Hlo) as H1. rewrite Qfloor_Z in H1.
  pose proof (Qfloor_le x) as H2.
  assert (H3 : (inject_Z (Qfloor x) < inject_Z (z + 1))%Q) by lra.
  rewrite <- Zlt_Qlt in H3. lia.
Qed.

Lemma rne_comp (x y : Q) : (x == y)%Q -> rne x = rne y.
Proof.
  intros H. apply Z.le_antisymm; apply rne_le; rewrite H; apply Qle_refl.
Qed.

Lemma rne_opp (x : Q) : rne (- x) = - rne x.
Proof.
  pose proof (Qfloor_le x) as Hlo. pose proof (Qlt_floor x) as Hhi.
  rewrite inject_Z_plus in Hhi. change (inject_Z 1) with 1%Q in Hhi.
  set (f := Qfloor x) in *.
  destruct (Qeq_dec x (inject_Z f)) as [E | NE].
  - rewrite (rne_comp x (inject_Z f) E).
    rewrite (rne_comp (- x) (inject_Z (- f))) by (rewrite inject_Z_opp, E; reflexivity).
    now rewrite !rne_Z.
  - assert (Hf : Qfloor (- x) = - f - 1).
    { apply Qfloor_unique.
      - replace (- f - 1) with (- (f + 1)) by lia.
        rewrite inject_Z_opp, inject_Z_plus. change (inject_Z 1) with 1%Q. lra.
      - replace (- f - 1 + 1) with (- f) by lia. rewrite inject_Z_opp.
        apply Qle_lteq in Hlo. destruct Hlo as [Hlt | Heq]; [lra |].
        exfalso. apply NE. now symmetry. }
    unfold rne. rewrite Hf. fold f.
    assert (Hi : (inject_Z (- f - 1) == - inject_Z f - 1)%Q).
    { unfold Z.sub. rewrite !inject_Z_plus, !inject_Z_opp. reflexivity. }
    destruct (x - inject_Z f ?= 1 # 2)%Q eqn:C1;
      destruct (- x - inject_Z (- f - 1) ?= 1 # 2)%Q eqn:C2;
      qcompare_facts; rewrite Hi in C2; try (exfalso; lra).
    + replace (- f - 1) with (- (f + 1)) by lia.
      rewrite Z.even_opp, Z.even_add. cbn.
      destruct (Z.even f); cbn; lia.
    + lia.
    + lia.
Qed.

Lemma ulp_exp_comp (x y : Q) : (x == y)%Q -> ulp_exp x = ulp_exp y.
Proof. intros H. unfold ulp_exp. now rewrite H. Qed.

Lemma round_units_comp (x y : Q) : (x == y)%Q -> round_units x = round_units y.
Proof.
  intros H. apply Z.le_antisymm; apply round_units_le; rewrite H; apply Qle_refl.
Qed.

Lemma round_units_opp (x : Q) : round_units (- x) = - round_units x.
Proof.
  unfold round_units.
  assert (He : ulp_exp (- x) = ulp_exp x).
  { unfold ulp_exp. do 3 f_equal. apply Qfloor_comp, Qabs_opp. }
  rewrite He.
  rewrite <- Z.mul_opp_l, <- rne_opp. f_equal.
  apply rne_comp. unfold Qdiv. ring.
Qed.

Lemma round32_comp (x y : Q) : (x == y)%Q -> round32 x = round32 y.
Proof.
  intros H. unfold round32. apply Qred_complete.
  rewrite (round_units_comp (x * inject_Z unit_scale) (y * inject_Z unit_scale));
    [reflexivity | now rewrite H].
Qed.

Lemma round32_opp (x : Q) : round32 (- x) = (- round32 x)%Q.
Proof.
  unfold round32. rewrite <- Qred_opp. apply Qred_complete.
  rewrite (round_units_comp (- x * inject_Z unit_scale) (- (x * inject_Z unit_scale)))
    by ring.
  rewrite round_units_opp, inject_Z_opp. unfold Qdiv. ring.
Qed.

Lemma Qtrunc_opp (x : Q) : Qtrunc (- x) = - Qtrunc x.
Proof.
  destruct x as [n d]. unfold Qtrunc. cbn. apply Z.quot_opp_l. discriminate.
Qed.

Lemma constrain_float_opp (x : float) :
  constrain fltb (- x)%Q (- TIDE_SCALE_FT)%Q TIDE_SCALE_FT
  = (- constrain fltb x (- TIDE_SCALE_FT)%Q TIDE_SCALE_FT)%Q.
Proof.
  unfold constrain.
  destruct (fltb (- x)%Q (- TIDE_SCALE_FT)%Q) eqn:A1;
    destruct (fltb x (- TIDE_SCALE_FT)%Q) eqn:B1;
    try destruct (fltb TIDE_SCALE_FT (- x)%Q) eqn:A2;
    try destruct (fltb TIDE_SCALE_FT x) eqn:B2;
    fltb_facts; unfold TIDE_SCALE_FT in *; try reflexivity; exfalso; lra.
Qed.

Lemma dac_counts_opp (x : float) : dac_counts (- x)%Q = (- dac_counts x)%Q.
Proof.
  unfold dac_counts, fmul, fdiv. rewrite constrain_float_opp.
  set (c := constrain fltb x (- TIDE_SCALE_FT)%Q TIDE_SCALE_FT).
  rewrite (round32_comp (- c / TIDE_SCALE_FT) (- (c / TIDE_SCALE_FT)))
    by (unfold Qdiv; ring).
  rewrite round32_opp.
  set (n := round32 (c / TIDE_SCALE_FT)).
  rewrite (round32_comp (- n * 127) (- (n * 127))) by ring.
  apply round32_opp.
Qed.

(** X1: [tideToDAC] is defined on every input and its code lies in
    [1, 255]: the code 0 is never produced. *)
Theorem tideToDAC_range (x : float) :
  exists c, tideToDAC x = Some c /\ 1 <= c <= 255.
Proof.
  exists (DAC_CENTER + Qtrunc (dac_counts x)). split; [apply tideToDAC_eq |].
  pose proof (Qtrunc_dac_counts_range x). unfold DAC_CENTER. lia.
Qed.

(** X2: the mapping is point-symmetric about the center: the codes of [x]
    and [-x] add up to 256. *)
Theorem tideToDAC_symmetric (x : float) :
  exists a b, tideToDAC x = Some a /\ tideToDAC (- x)%Q = Some b /\ a + b = 256.
Proof.
  exists (DAC_CENTER + Qtrunc (dac_counts x)),
         (DAC_CENTER + Qtrunc (dac_counts (- x)%Q)).
  split; [apply tideToDAC_eq |]. split; [apply tideToDAC_eq |].
  rewrite dac_counts_opp, Qtrunc_opp. unfold DAC_CENTER. lia.
Qed.

Lemma bar_position_range (x : float) :
  (0 <= bar_position x)%Q /\ (bar_position x <= 100)%Q.
Proof. unfold bar_position. apply constrain_float_range. discriminate. Qed.

Lemma bar_position_le (x y : float) :
  (x <= y)%Q -> (bar_position x <= bar_position y)%Q.
Proof.
  intros H. unfold bar_position, fadd, fmul, fdiv.
  apply constrain_float_le; [discriminate |].
  apply round32_le. apply Qplus_le_r.
  apply round32_le. apply Qmult_le_compat_r; [| discriminate].
  apply round32_le, Qdiv_le_compat; [reflexivity | exact H].
Qed.

Lemma tideBarPercent_eq (s : TideState.t) :
  tideBarPercent s = Some (Qtrunc (bar_position (TideState.deltaMSL s))) /\
  0 <= Qtrunc (bar_position (TideState.deltaMSL s)) <= 100.
Proof.
  destruct (bar_position_range (TideState.deltaMSL s)) as [Hlo Hhi].
  assert (Hr : 0 <= Qtrunc (bar_position (TideState.deltaMSL s)) <= 100).
  { split.
    - rewrite <- (Qtrunc_Z 0). now apply Qtrunc_le.
    - rewrite <- (Qtrunc_Z 100). now apply Qtrunc_le. }
  split; [| exact Hr].
  unfold tideBarPercent. cbv zeta. fold (bar_position (TideState.deltaMSL s)).
  unfold float_to_int. apply checked_in_range.
  unfold INT_MIN, INT_MAX. lia.
Qed.

(** X3: the tide bar of the status page is always defined and lies in
    [0, 100]; it is monotone in the deviation, 50 at mean sea level, 100 from
    +8 ft up and 0 from -8 ft down. *)
Theorem tideBarPercent_bounds_and_ends :
  (forall s, exists p, tideBarPercent s = Some p /\ 0 <= p <= 100) /\
  (forall s1 s2 p1 p2,
     (TideState.deltaMSL s1 <= TideState.deltaMSL s2)%Q ->
     tideBarPercent s1 = Some p1 -> tideBarPercent s2 = Some p2 -> p1 <= p2) /\
  (forall s, TideState.deltaMSL s = 0%Q -> tideBarPercent s = Some 50) /\
  (forall s, (TIDE_SCALE_FT <= TideState.deltaMSL s)%Q -> tideBarPercent s = Some 100) /\
  (forall s, (TideState.deltaMSL s <= - TIDE_SCALE_FT)%Q -> tideBarPercent s = Some 0).
Proof.
  split; [| split; [| split; [| split]]].
  - intros s. destruct (tideBarPercent_eq s) as [E Hr]. eauto.
  - intros s1 s2 p1 p2 H E1 E2.
    rewrite (proj1 (tideBarPercent_eq s1)) in E1.
    rewrite (proj1 (tideBarPercent_eq s2)) in E2.
    injection E1 as <-. injection E2 as <-.
    now apply Qtrunc_le, bar_position_le.
  - intros s H. rewrite (proj1 (tideBarPercent_eq s)), H. reflexivity.
  - intros s H. destruct (tideBarPercent_eq s) as [E [_ Hhi]]. rewrite E. f_equal.
    apply Z.le_antisymm; [exact Hhi |].
    change 100 with (Qtrunc (bar_position TIDE_SCALE_FT)).
    now apply Qtrunc_le, bar_position_le.
  - intros s H. destruct (tideBarPercent_eq s) as [E [Hlo _]]. rewrite E. f_equal.
    apply Z.le_antisymm; [| exact Hlo].
    change 0 with (Qtrunc (bar_position (- TIDE_SCALE_FT)%Q)).
    now apply Qtrunc_le, bar_position_le.
Qed.

Lemma tideBarPercent_bounds_and_ends_witness :
  tideBarPercent (TideState.mk (35 # 4) (12 # 1) "--" 0%Q "--" "--" true) = Some 100.
Proof.
  apply (proj1 (proj2 (proj2 (proj2 tideBarPercent_bounds_and_ends)))).
  now vm_compute.
Defined.

(** ** Boot sweep, setup and the timers of [loop] *)

Lemma sweep_up_writes (fuel : nat) (i : Z) (d : Device) :
  dac (sweep_up fuel i d) = up_writes fuel i (dac d).
Proof.
  revert i d. induction fuel as [| fuel IH]; intros i d; cbn [sweep_up up_writes];
    [reflexivity |].
  destruct (i <=? 255); [| reflexivity]. now rewrite IH.
Qed.

Lemma sweep_down_writes (fuel : nat) (i : Z) (d : Device) :
  dac (sweep_down fuel i d) = down_writes fuel i (dac d).
Proof.
  revert i d. induction fuel as [| fuel IH]; intros i d;
    cbn [sweep_down down_writes]; [reflexivity |].
  destruct (DAC_CENTER <=? i); [| reflexivity]. now rewrite IH.
Qed.

Lemma up_writes_app (fuel : nat) (i : Z) (acc : list Z) :
  up_writes fuel i acc = (up_writes fuel i [] ++ acc)%list.
Proof.
  revert i acc. induction fuel as [| fuel IH]; intros i acc; cbn [up_writes];
    [reflexivity |].
  destruct (i <=? 255); [| reflexivity].
  rewrite (IH (i + 3) (to_uint8 i :: acc)), (IH (i + 3) [to_uint8 i]).
  now rewrite <- app_assoc.
Qed.

Lemma down_writes_app (fuel : nat) (i : Z) (acc : list Z) :
  down_writes fuel i acc = (down_writes fuel i [] ++ acc)%list.
Proof.
  revert i acc. induction fuel as [| fuel IH]; intros i acc; cbn [down_writes];
    [reflexivity |].
  destruct (DAC_CENTER <=? i); [| reflexivity].
  rewrite (IH (i - 3) (to_uint8 i :: acc)), (IH (i - 3) [to_uint8 i]).
  now rewrite <- app_assoc.
Qed.

(** The loops end by their own tests: more fuel changes nothing. *)
Lemma up_writes_enough (fuel : nat) (i : Z) (acc : list Z) :
  (Z.to_nat ((255 - i) / 3 + 1) <= fuel)%nat ->
  up_writes (S fuel) i acc = up_writes fuel i acc.
Proof.
  revert i acc. induction fuel as [| fuel IH]; intros i acc H.
  - cbn [up_writes]. destruct (Z.leb_spec i 255); [| reflexivity].
    exfalso. assert (0 <= (255 - i) / 3) by (apply Z.div_pos; lia). lia.
  - cbn [up_writes] in *. destruct (Z.leb_spec i 255); [| reflexivity].
    apply IH.
    replace (255 - (i + 3)) with ((255 - i) + (-1) * 3) by lia.
    rewrite Z.div_add by lia.
    assert (0 <= (255 - i) / 3) by (apply Z.div_pos; lia). lia.
Qed.

Lemma down_writes_enough (fuel : nat) (i : Z) (acc : list Z) :
  (Z.to_nat ((i - DAC_CENTER) / 3 + 1) <= fuel)%nat ->
  down_writes (S fuel) i acc = down_writes fuel i acc.
Proof.
  revert i acc. induction fuel as [| fuel IH]; intros i acc H.
  - cbn [down_writes]. destruct (Z.leb_spec DAC_CENTER i); [| reflexivity].
    exfalso. assert (0 <= (i - DAC_CENTER) / 3) by (apply Z.div_pos; lia). lia.
  - cbn [down_writes] in *. destruct (Z.leb_spec DAC_CENTER i); [| reflexivity].
    apply IH.
    replace (i - 3 - DAC_CENTER) with ((i - DAC_CENTER) + (-1) * 3) by lia.
    rewrite Z.div_add by lia.
    assert (0 <= (i - DAC_CENTER) / 3) by (apply Z.div_pos; lia). lia.
Qed.

Lemma up_writes_fuel (k : nat) (acc : list Z) :
  up_writes (86 + k) 0 acc = up_writes 86 0 acc.
Proof.
  induction k as [| k IH]; [now rewrite Nat.add_0_r |].
  rewrite <- plus_n_Sm, up_writes_enough; [exact IH |].
  change (Z.to_nat ((255 - 0) / 3 + 1)) with 86%nat. lia.
Qed.

Lemma down_writes_fuel (k : nat) (acc : list Z) :
  down_writes (43 + k) 255 acc = down_writes 43 255 acc.
Proof.
  induction k as [| k IH]; [now rewrite Nat.add_0_r |].
  rewrite <- plus_n_Sm, down_writes_enough; [exact IH |].
  change (Z.to_nat ((255 - DAC_CENTER) / 3 + 1)) with 43%nat. lia.
Qed.

Lemma bootSweep_writes (d : Device) :
  rev (dac (bootSweep d)) = (rev (dac d) ++ sweep_sequence)%list.
Proof.
  unfold bootSweep. cbv zeta.
  unfold setNeedle at 1. cbn [dacWrite dac].
  rewrite sweep_down_writes, sweep_up_writes.
  unfold setNeedle at 1. cbn [dacWrite dac].
  rewrite down_writes_app, up_writes_app.
  change (to_uint8 DAC_CENTER :: (down_writes 256 255 [] ++
            up_writes 256 0 [] ++ to_uint8 0 :: dac d))%list
    with ((to_uint8 DAC_CENTER :: (down_writes 256 255 [] ++
            up_writes 256 0 [] ++ [to_uint8 0])) ++ dac d)%list.
  rewrite rev_app_distr. f_equal.
Qed.

Lemma sweep_sequence_bytes : Forall (fun v => 0 <= v <= 255) sweep_sequence.
Proof.
  unfold sweep_sequence. vm_compute.
  repeat (constructor; [split; discriminate |]). constructor.
Qed.

(** X4: the boot sweep writes, in this order, 0, then 0, 3, ..., 255, then
    255, 252, ..., 129, then the center 128: 131 writes, all of them 8-bit
    values, after the writes made before; the two loops stop by their own
    tests after 86 and 43 rounds, however many more rounds they are given. *)
Theorem bootSweep_sequence (d : Device) :
  rev (dac (bootSweep d)) = (rev (dac d) ++ sweep_sequence)%list /\
  Forall (fun v => 0 <= v <= 255) sweep_sequence /\
  List.length sweep_sequence = 131%nat /\
  (forall k d0, dac (sweep_up (86 + k) 0 d0) = dac (sweep_up 86 0 d0)) /\
  (forall k d0, dac (sweep_down (43 + k) 255 d0) = dac (sweep_down 43 255 d0)).
Proof.
  split; [apply bootSweep_writes |].
  split; [exact sweep_sequence_bytes |].
  split; [reflexivity |]. split.
  - intros k d0. rewrite !sweep_up_writes. apply up_writes_fuel.
  - intros k d0. rewrite !sweep_down_writes. apply down_writes_fuel.
Qed.

Lemma after_fetches_timers (w : World) (d : Device) :
  lastTideFetch (after_fetches w d)
    = (if tide_due w d then millis w else lastTideFetch d) /\
  lastWeatherFetch (after_fetches w d)
    = (if weather_due w d then millis w else lastWeatherFetch d) /\
  weatherState (after_fetches w d)
    = (if weather_due w d
       then fetchWeather (weather_world w) (weatherState d)
       else weatherState d).
Proof.
  unfold after_fetches, tide_due, weather_due. cbv zeta.
  destruct (TIDE_INTERVAL_MS <=? elapsed (millis w) (lastTideFetch d));
    cbn [do_fetchTide lastWeatherFetch];
    destruct (WEATHER_INTERVAL_MS <=? elapsed (millis w) (lastWeatherFetch d));
    repeat split.
Qed.

(** The globals a pass of [loop] leaves, timer by timer. *)
Lemma loop_timers (w : World) (d : Device) :
  exists d',
    loop w d = Some d' /\
    lastTideFetch d' = (if tide_due w d then millis w else lastTideFetch d) /\
    lastWeatherFetch d' = (if weather_due w d then millis w else lastWeatherFetch d) /\
    lastNeedleUpdate d' = (if needle_due w d then millis w else lastNeedleUpdate d) /\
    tideState d' =
      (if tide_due w d then fetchTide (tide_world w) (tideState d) else tideState d) /\
    weatherState d' =
      (if weather_due w d then fetchWeather (weather_world w) (weatherState d)
       else weatherState d).
Proof.
  rewrite loop_blocks. cbv zeta.
  destruct (after_fetches_fields w d) as (Ht & Hn & Hd).
  destruct (after_fetches_timers w d) as (Hlt & Hlw & Hw).
  unfold needle_due. rewrite Hn. fold (tide_after w d) in *.
  change (if tide_due w d then fetchTide (tide_world w) (tideState d) else tideState d)
    with (tide_after w d).
  destruct (DISPLAY_INTERVAL_MS <=? elapsed (millis w) (lastNeedleUpdate d)).
  - cbn [tideState]. destruct (TideState.valid (tideState (after_fetches w d))).
    + rewrite needle_to_tide_eq. eexists. split; [reflexivity |].
      cbn [dacWrite lastTideFetch lastWeatherFetch lastNeedleUpdate tideState
           weatherState].
      now rewrite Hlt, Hlw, Ht, Hw.
    + eexists. split; [reflexivity |].
      cbn [lastTideFetch lastWeatherFetch lastNeedleUpdate tideState weatherState].
      now rewrite Hlt, Hlw, Ht, Hw.
  - eexists. split; [reflexivity |]. now rewrite Hlt, Hlw, Ht, Hw, Hn.
Qed.

(** X5: a pass of [loop] in which none of the three timers has expired
    leaves the device exactly as it was. *)
Theorem loop_idle_pass (w : World) (d : Device) :
  tide_due w d = false -> weather_due w d = false -> needle_due w d = false ->
  loop w d = Some d.
Proof.
  unfold tide_due, weather_due, needle_due, loop. cbv zeta.
  intros Ht Hw Hn. now rewrite Ht, Hw, Hn.
Qed.

Lemma loop_idle_pass_witness :
  loop (mk_world 4000 tide_up weather_down) power_on = Some power_on.
Proof.
  apply (loop_idle_pass (mk_world 4000 tide_up weather_down) power_on);
    reflexivity.
Defined.

(** X6: each timer of [loop] is restarted at the pass's [millis] exactly when
    it has expired, whatever the outcome of the fetch it triggers, and its
    action runs exactly then; a timer restarted in one pass has not expired
    in a later pass that comes less than the interval after it. *)
Theorem loop_timer_cadence (w : World) (d : Device) :
  exists d',
    loop w d = Some d' /\
    lastTideFetch d' = (if tide_due w d then millis w else lastTideFetch d) /\
    lastWeatherFetch d' = (if weather_due w d then millis w else lastWeatherFetch d) /\
    lastNeedleUpdate d' = (if needle_due w d then millis w else lastNeedleUpdate d) /\
    tideState d' =
      (if tide_due w d then fetchTide (tide_world w) (tideState d) else tideState d) /\
    weatherState d' =
      (if weather_due w d then fetchWeather (weather_world w) (weatherState d)
       else weatherState d) /\
    (forall w2,
       (tide_due w d = true ->
        elapsed (millis w2) (millis w) < TIDE_INTERVAL_MS -> tide_due w2 d' = false) /\
       (weather_due w d = true ->
        elapsed (millis w2) (millis w) < WEATHER_INTERVAL_MS ->
        weather_due w2 d' = false) /\
       (needle_due w d = true ->
        elapsed (millis w2) (millis w) < DISPLAY_INTERVAL_MS ->
        needle_due w2 d' = false)).
Proof.
  destruct (loop_timers w d) as (d' & Hl & Ht & Hw & Hn & Hts & Hws).
  exists d'. repeat split; trivial; intros Hdue Hlt.
  - unfold tide_due at 1. rewrite Ht, Hdue. now apply Z.leb_gt.
  - unfold weather_due at 1. rewrite Hw, Hdue. now apply Z.leb_gt.
  - unfold needle_due at 1. rewrite Hn, Hdue. now apply Z.leb_gt.
Qed.

(** X7: the elapsed time is computed correctly across the wrap of the 32-bit
    millisecond counter: [t] milliseconds after a timer was restarted at
    [last], the subtraction yields [t], so the timer expires exactly when [t]
    reaches its interval. *)
Theorem elapsed_across_wrap (last t : Z) :
  0 <= last < 2 ^ 32 -> 0 <= t < 2 ^ 32 ->
  elapsed ((last + t) mod 2 ^ 32) last = t.
Proof.
  intros Hl Ht. unfold elapsed.
  rewrite Zminus_mod_idemp_l.
  replace (last + t - last) with t by lia.
  now apply Z.mod_small.
Qed.

Lemma elapsed_across_wrap_witness :
  elapsed ((4294967000 + 5000) mod 2 ^ 32) 4294967000 = 5000.
Proof.
  apply (elapsed_across_wrap 4294967000 5000); lia.
Defined.


(** X8: in a pass where the tide timer and the needle timer have both expired
    and the water level arrives, the needle is set from the reading just
    fetched: the DAC receives [tideToDAC(v - NOAA_MSL_FT)] for the last
    reading [v] of the reply. *)
Theorem loop_needle_uses_fresh_reading (w : World) (d : Device) :
  tide_due w d = true -> needle_due w d = true ->
  level_ok (tw_level (tide_world w)) ->
  exists d' c,
    loop w d = Some d' /\
    tideToDAC (fsub (last (wl_data (tw_level (tide_world w))) 0%Q) NOAA_MSL_FT)
      = Some c /\
    dac d' = c :: dac d.
Proof.
  intros Ht Hn Hl.
  destruct (loop_pass w d) as (d' & Hloop & Hts & Hd).
  assert (E : tide_after w d = fetchTide (tide_world w) (tideState d)).
  { unfold tide_after. unfold tide_due in Ht. now rewrite Ht. }
  destruct (fetchTide_level_ok (tide_world w) (tideState d) Hl) as [Hlv Hv].
  apply level_fields in Hlv. destruct Hlv as [_ Hdelta].
  rewrite Hn, E, Hv in Hd. cbn [andb] in Hd.
  exists d', (needle_code (fetchTide (tide_world w) (tideState d))).
  split; [exact Hloop |]. split; [| exact Hd].
  unfold needle_code. rewrite Hdelta. apply tideToDAC_eq.
Qed.

Lemma loop_needle_uses_fresh_reading_witness :
  exists d' c,
    loop (mk_world 400000 tide_up weather_down) power_on = Some d' /\
    tideToDAC (fsub (75 # 8) NOAA_MSL_FT) = Some c /\
    dac d' = c :: dac power_on.
Proof.
  apply (loop_needle_uses_fresh_reading (mk_world 400000 tide_up weather_down)
           power_on).
  - reflexivity.
  - reflexivity.
  - repeat split. discriminate.
Defined.





(** ** More on the tide service *)

(** The test of the search, on the entry's own timestamp: [mktime] reads the
    GMT fields as local time, eight hours west, so the entry counts as later
    than [now] as soon as it is later than [now] less eight hours. *)
Lemma qualifies_timestamp (now : Z) (p : Prediction) :
  qualifies now p = (now + GMT_OFFSET_SEC <? timestamp p).
Proof.
  unfold qualifies. rewrite pt_timestamp. unfold GMT_OFFSET_SEC.
  destruct (Z.ltb_spec now (timestamp p + 28800));
    destruct (Z.ltb_spec (now + -8 * 3600) (timestamp p)); trivial; lia.
Qed.

(** X10: a refresh in which the water-level request fails and the search
    takes nothing (the predictions request fails, or every prediction's
    timestamp is at or before [now] less eight hours, the mark below which
    the search turns an entry down) changes [fetchedAt] and nothing else. *)
Theorem fetchTide_failed_cycle_only_stamps (w : TideWorld) (s : TideState.t) :
  level_failed (tw_level w) ->
  predictions_failed (tw_predictions w) \/
  Forall (fun p => timestamp p <= tw_now w + GMT_OFFSET_SEC)
         (pr_predictions (tw_predictions w)) ->
  fetchTide w s = TideState.set_fetchedAt (nowString (tw_clock w)) s.
Proof.
  intros Hl Hp. rewrite fetchTide_steps, level_step_failed by exact Hl.
  destruct Hp as [Hp | Hp].
  - now rewrite event_step_failed.
  - rewrite event_step_all_past; [reflexivity |].
    eapply Forall_impl; [| exact Hp].
    intros p H. cbv beta in H. rewrite pt_timestamp.
    unfold GMT_OFFSET_SEC in H. lia.
Qed.

Lemma fetchTide_failed_cycle_only_stamps_witness :
  fetchTide old_past TideState.init
  = TideState.set_fetchedAt (nowString (tw_clock old_past)) TideState.init.
Proof.
  apply (fetchTide_failed_cycle_only_stamps old_past TideState.init).
  - left. cbn. lia.
  - right. repeat constructor. cbn. lia.
Defined.

(** X11: a refresh is idempotent: a second refresh with the same replies and
    the same clock readings leaves the state the first one produced. *)
Theorem fetchTide_idempotent (w : TideWorld) (s : TideState.t) :
  fetchTide w (fetchTide w s) = fetchTide w s.
Proof.
  rewrite !fetchTide_steps.
  set (f := nowString (tw_clock w)).
  assert (He :
    (forall s0, event_step (tw_predictions w) (tw_now w) s0 = s0) \/
    (exists p, forall s1,
       event_step (tw_predictions w) (tw_now w) s1 = take_event p s1)).
  { unfold event_step.
    destruct (pr_code (tw_predictions w) =? 200); [| now left].
    destruct (pr_code2 (tw_predictions w) =? 200); [| now left].
    destruct (find (qualifies (tw_now w)) (pr_predictions (tw_predictions w)))
      as [p |] eqn:E.
    - right. exists p. intros s1. now rewrite scan_predictions_find, E.
    - left. intros s0. now rewrite scan_predictions_find, E. }
  destruct (level_ok_or_failed (tw_level w)) as [Hl | Hl].
  - rewrite !level_step_ok by exact Hl.
    destruct He as [E | [p E]]; rewrite !E; reflexivity.
  - rewrite !level_step_failed by exact Hl.
    destruct He as [E | [p E]]; rewrite !E; reflexivity.
Qed.

Lemma find_filter (A : Type) (f : A -> bool) (l : list A) :
  find f (filter f l) = find f l.
Proof.
  induction l as [| a l IH]; [reflexivity |].
  cbn [filter find]. destruct (f a) eqn:E; [| exact IH].
  cbn [find]. now rewrite E.
Qed.

Lemma find_app_first (A : Type) (f : A -> bool) (before after : list A) (x : A) :
  f x = true -> find f (before ++ x :: after) = find f (before ++ [x]).
Proof.
  intros H. induction before as [| b before IH]; cbn [app find].
  - now rewrite H.
  - destruct (f b); [reflexivity | exact IH].
Qed.

(** X12: the search looks at no entry whose timestamp is at or before [now]
    less eight hours, and at no entry behind the first one later than that
    mark: dropping the former, or replacing the latter by anything, does not
    change its result. *)
Theorem scan_predictions_relevant_entries
  (now : Z) (s : TideState.t) :
  (forall ps,
     scan_predictions now
       (filter (fun p => now + GMT_OFFSET_SEC <? timestamp p) ps) s
     = scan_predictions now ps s) /\
  (forall before p after after',
     now + GMT_OFFSET_SEC < timestamp p ->
     scan_predictions now (before ++ p :: after) s
     = scan_predictions now (before ++ p :: after') s).
Proof.
  split.
  - intros ps.
    rewrite <- (filter_ext (qualifies now) _ (qualifies_timestamp now)).
    now rewrite !scan_predictions_find, find_filter.
  - intros before p after after' Hp.
    rewrite !scan_predictions_find.
    assert (Hq : qualifies now p = true).
    { rewrite qualifies_timestamp. now apply Z.ltb_lt. }
    now rewrite (find_app_first _ _ before after p Hq),
                (find_app_first _ _ before after' p Hq).
Qed.

Lemma scan_predictions_relevant_entries_witness :
  scan_predictions 43200
    ([] ++ mk_pred (mk_tm 5 0 0) 18000 "H" (33 # 4) :: []) TideState.init
  = scan_predictions 43200
      ([] ++ mk_pred (mk_tm 5 0 0) 18000 "H" (33 # 4) :: example_predictions)
      TideState.init.
Proof.
  apply (proj2 (scan_predictions_relevant_entries 43200 TideState.init)).
  cbn. lia.
Defined.
(** ** Time labels *)

Lemma string_length_append (a b : string) :
  String.length (a ++ b) = (String.length a + String.length b)%nat.
Proof. induction a as [| c a IH]; cbn; [reflexivity | now rewrite IH]. Qed.

Lemma substring_whole (n : nat) (s : string) :
  (String.length s <= n)%nat -> substring 0 n s = s.
Proof.
  revert n. induction s as [| c s IH]; intros n H.
  - now destruct n.
  - destruct n as [| n]; cbn in H; [lia |]. cbn. f_equal. apply IH. lia.
Qed.

Lemma substring_length_le (n : nat) (s : string) :
  (String.length (substring 0 n s) <= n)%nat.
Proof.
  revert n. induction s as [| c s IH]; intros n.
  - destruct n; cbn; lia.
  - destruct n as [| n]; cbn; [lia |]. specialize (IH n). lia.
Qed.

Lemma fmt02d_agrees_upto_99 : forallb fmt02d_agrees (seq 0 100) = true.
Proof. vm_compute. reflexivity. Qed.

Lemma fmt02d_two_digits (n : Z) : two_digit_field n -> fmt02d n = two_digits n.
Proof.
  intros H. pose proof fmt02d_agrees_upto_99 as Hall.
  rewrite forallb_forall in Hall. specialize (Hall (Z.to_nat n)).
  rewrite in_seq in Hall. unfold two_digit_field in H.
  specialize (Hall ltac:(lia)).
  unfold fmt02d_agrees in Hall. rewrite Z2Nat.id in Hall by lia.
  now apply String.eqb_eq.
Qed.

(** X13: with fields that print with two digits (0 to 99, so every hour,
    minute and second), [nowString] is the eight characters HH:MM:SS and the
    next-event label is the nine characters "HH:MM UTC", each digit pair
    being the tens and the units; the buffers of 20 and 10 characters cut
    nothing off.  Whatever the fields, the labels never exceed 19 and 9
    characters. *)
Theorem time_labels :
  (forall t,
     two_digit_field (tm_hour t) -> two_digit_field (tm_min t) ->
     two_digit_field (tm_sec t) ->
     nowString t =
       (two_digits (tm_hour t) ++ ":" ++ two_digits (tm_min t) ++ ":"
          ++ two_digits (tm_sec t))%string /\
     String.length (nowString t) = 8%nat) /\
  (forall p s,
     two_digit_field (tm_hour (ptm p)) -> two_digit_field (tm_min (ptm p)) ->
     TideState.nextEventTime (take_event p s) =
       (two_digits (tm_hour (ptm p)) ++ ":" ++ two_digits (tm_min (ptm p))
          ++ " UTC")%string /\
     String.length (TideState.nextEventTime (take_event p s)) = 9%nat) /\
  (forall t, (String.length (nowString t) <= 19)%nat) /\
  (forall p s, (String.length (TideState.nextEventTime (take_event p s)) <= 9)%nat).
Proof.
  split; [| split; [| split]].
  - intros t Hh Hm Hs. unfold nowString, snprintf.
    rewrite !fmt02d_two_digits by assumption.
    rewrite substring_whole by (cbn; lia). split; reflexivity.
  - intros p s Hh Hm. unfold take_event. cbn [TideState.set_nextEvent TideState.nextEventTime].
    unfold snprintf. rewrite !fmt02d_two_digits by assumption.
    rewrite substring_whole by (cbn; lia). split; reflexivity.
  - intros t. apply (substring_length_le 19).
  - intros p s. apply (substring_length_le 9).
Qed.

Lemma time_labels_witness :
  nowString (mk_tm 7 5 59) =
    (two_digits 7 ++ ":" ++ two_digits 5 ++ ":" ++ two_digits 59)%string /\
  String.length (nowString (mk_tm 7 5 59)) = 8%nat.
Proof.
  apply (proj1 time_labels (mk_tm 7 5 59)); unfold two_digit_field; cbn; lia.
Defined.

Lemma take_event_type (p : Prediction) (s : TideState.t) :
  TideState.nextEventType (take_event p s) = "High"%string \/
  TideState.nextEventType (take_event p s) = "Low"%string.
Proof.
  unfold take_event. cbn [TideState.set_nextEvent TideState.nextEventType].
  destruct (ptype p =? "H")%string; auto.
Qed.

Lemma fetchTide_event_type (w : TideWorld) (s : TideState.t) :
  TideState.nextEventType (fetchTide w s) = TideState.nextEventType s \/
  TideState.nextEventType (fetchTide w s) = "High"%string \/
  TideState.nextEventType (fetchTide w s) = "Low"%string.
Proof.
  rewrite fetchTide_steps.
  set (s1 := level_step (tw_level w) s).
  assert (H1 : TideState.nextEventType s1 = TideState.nextEventType s).
  { unfold s1. destruct (level_ok_or_failed (tw_level w)) as [Hl | Hl].
    - now rewrite level_step_ok.
    - now rewrite level_step_failed. }
  change (TideState.nextEventType
            (TideState.set_fetchedAt (nowString (tw_clock w))
               (event_step (tw_predictions w) (tw_now w) s1)))
    with (TideState.nextEventType (event_step (tw_predictions w) (tw_now w) s1)).
  unfold event_step.
  destruct (pr_code (tw_predictions w) =? 200); [| now left].
  destruct (pr_code2 (tw_predictions w) =? 200); [| now left].
  rewrite scan_predictions_find.
  destruct (find (qualifies (tw_now w)) (pr_predictions (tw_predictions w)));
    [right; apply take_event_type | now left].
Qed.

(** X14: over any run of refresh cycles from boot the next-event type is
    "--" (nothing found yet), "High" or "Low", and it is "High" only for a
    prediction of type "H": every other type code is shown as "Low". *)
Theorem next_event_type_values :
  (forall ws,
     In (TideState.nextEventType (fetch_cycles ws TideState.init))
        ["--"; "High"; "Low"]%string) /\
  (forall p s,
     TideState.nextEventType (take_event p s) =
       if (ptype p =? "H")%string then "High"%string else "Low"%string).
Proof.
  split; [| reflexivity].
  intros ws.
  assert (H : forall s, In (TideState.nextEventType s) ["--"; "High"; "Low"]%string ->
            In (TideState.nextEventType (fetch_cycles ws s)) ["--"; "High"; "Low"]%string).
  { induction ws as [| w ws IH]; intros s Hs; [exact Hs |].
    apply IH. destruct (fetchTide_event_type w s) as [E | [E | E]]; rewrite E.
    - exact Hs.
    - right. now left.
    - right. right. now left. }
  apply H. now left.
Qed.

(** ** Weather codes and the weather service *)

Lemma wmo_unknown_label (code : Z) :
  wmo_known code = false ->
  wmoDescription code = ("Unknown (" ++ decimal code ++ ")")%string.
Proof.
  intros H. destruct code as [| p | p]; [discriminate | | reflexivity].
  do 7 (destruct p as [p | p |]; try discriminate H; try reflexivity).
Qed.

Lemma wmo_known_label (code : Z) :
  wmo_known code = true ->
  In (wmoDescription code)
     ["Clear sky"; "Mainly clear"; "Partly cloudy"; "Overcast"; "Fog"; "Drizzle";
      "Rain"; "Snow"; "Showers"; "Thunderstorm"]%string.
Proof.
  intros H. destruct code as [| p | p]; [now left | | discriminate].
  do 7 (destruct p as [p | p |]; try discriminate H; try (cbn; tauto)).
Qed.

Lemma decimal_inj (a b : Z) : decimal a = decimal b -> a = b.
Proof.
  unfold decimal. intros H.
  assert (Hn : forall z, Z.to_int z <> Decimal.Pos Decimal.Nil /\
                         Z.to_int z <> Decimal.Neg Decimal.Nil).
  { intros [| p | p]; cbn; split; try discriminate;
      intros E; injection E as E; now apply (Unsigned.to_uint_nonnil p). }
  apply (f_equal NilZero.int_of_string) in H.
  rewrite !NilZero.isi in H by apply Hn.
  injection H as H. apply (f_equal Z.of_int) in H.
  now rewrite !DecimalZ.of_to in H.
Qed.

Lemma append_cancel_r (a b x : string) :
  (a ++ x = b ++ x)%string -> a = b.
Proof.
  revert b. induction a as [| c a IH]; intros b H.
  - destruct b as [| c' b]; [reflexivity |]. exfalso.
    apply (f_equal String.length) in H. cbn in H.
    rewrite string_length_append in H. lia.
  - destruct b as [| c' b].
    + exfalso. apply (f_equal String.length) in H. cbn in H.
      rewrite string_length_append in H. lia.
    + cbn in H. injection H as -> H. f_equal. now apply IH.
Qed.

(** X15: [wmoDescription] gives one of ten labels for the nineteen codes of
    its table, the codes of a group sharing the label (51, 53, 55 are
    "Drizzle"; 61, 63, 65 are "Rain"); every other code, negative ones
    included, gives "Unknown (" followed by the code in decimal and ")", and
    the code can be read back: two codes outside the table with the same
    label are equal. *)
Theorem wmoDescription_labels :
  (forall code, wmo_known code = true ->
     In (wmoDescription code)
        ["Clear sky"; "Mainly clear"; "Partly cloudy"; "Overcast"; "Fog"; "Drizzle";
         "Rain"; "Snow"; "Showers"; "Thunderstorm"]%string) /\
  (wmoDescription 51 = "Drizzle"%string /\ wmoDescription 53 = "Drizzle"%string /\
   wmoDescription 55 = "Drizzle"%string /\ wmoDescription 61 = "Rain"%string /\
   wmoDescription 63 = "Rain"%string /\ wmoDescription 65 = "Rain"%string) /\
  (forall code, wmo_known code = false ->
     wmoDescription code = ("Unknown (" ++ decimal code ++ ")")%string) /\
  (forall c1 c2, wmo_known c1 = false -> wmo_known c2 = false ->
     wmoDescription c1 = wmoDescription c2 -> c1 = c2).
Proof.
  split; [exact wmo_known_label |].
  split; [repeat split |].
  split; [exact wmo_unknown_label |].
  intros c1 c2 H1 H2 E.
  rewrite (wmo_unknown_label c1 H1), (wmo_unknown_label c2 H2) in E.
  cbn [append] in E. injection E as E.
  now apply decimal_inj, (append_cancel_r _ _ ")"%string).
Qed.

Lemma wmoDescription_labels_witness :
  wmoDescription 999 = ("Unknown (" ++ decimal 999 ++ ")")%string.
Proof.
  apply (proj1 (proj2 (proj2 wmoDescription_labels)) 999). reflexivity.
Defined.

Lemma weather_ok_or_failed (r : WeatherReply) : weather_ok r \/ weather_failed r.
Proof.
  unfold weather_ok, weather_failed.
  destruct (Z.eq_dec (wr_code r) 200); [| now auto].
  destruct (wr_err r); now auto.
Qed.

Lemma fetchWeather_ok (w : WeatherWorld) (s : WeatherState.t) :
  weather_ok (ww_reply w) ->
  fetchWeather w s =
  WeatherState.mk (temperature_2m (ww_reply w)) (windspeed_10m (ww_reply w))
    (winddirection_10m (ww_reply w)) (wmoDescription (weathercode (ww_reply w)))
    (nowString (ww_clock w)) true.
Proof. intros [Hc He]. unfold fetchWeather. now rewrite Hc, He. Qed.

Lemma fetchWeather_failed (w : WeatherWorld) (s : WeatherState.t) :
  weather_failed (ww_reply w) ->
  fetchWeather w s = WeatherState.set_fetchedAt (nowString (ww_clock w)) s.
Proof.
  intros [H | H]; unfold fetchWeather.
  - destruct (Z.eqb_spec (wr_code (ww_reply w)) 200); [contradiction | reflexivity].
  - rewrite H. now destruct (wr_code (ww_reply w) =? 200).
Qed.

Lemma weather_cycles_valid_iff (ws : list WeatherWorld) (s : WeatherState.t) :
  WeatherState.valid (weather_cycles ws s) = true <->
  WeatherState.valid s = true \/ Exists (fun w => weather_ok (ww_reply w)) ws.
Proof.
  revert s. induction ws as [| w ws IH]; intros s.
  - cbn. split; [now left | intros [H | H]; [exact H | inversion H]].
  - change (weather_cycles (w :: ws) s) with (weather_cycles ws (fetchWeather w s)).
    rewrite IH. destruct (weather_ok_or_failed (ww_reply w)) as [Hok | Hf].
    + rewrite (fetchWeather_ok w s Hok). cbn [WeatherState.valid]. split.
      * intros _. right. now apply Exists_cons_hd.
      * intros _. now left.
    + rewrite (fetchWeather_failed w s Hf). cbn [WeatherState.set_fetchedAt WeatherState.valid].
      split.
      * intros [H | H]; [now left | right; now apply Exists_cons_tl].
      * intros [H | H]; [now left |].
        inversion H as [? ? Hok | ? ? Hr]; subst; [| now right].
        exfalso. destruct Hok as [Hc He]. destruct Hf as [Hf | Hf]; congruence.
Qed.

(** X16: a successful weather fetch replaces the whole weather state by the
    reply (the condition being the label of the weather code) and sets
    [valid]; a failed one changes only [fetchedAt]; over any run of cycles
    from boot [valid] is true exactly when some fetch has succeeded, and is
    never reset. *)
Theorem weather_valid_policy :
  (forall w s, weather_ok (ww_reply w) ->
     fetchWeather w s =
     WeatherState.mk (temperature_2m (ww_reply w)) (windspeed_10m (ww_reply w))
       (winddirection_10m (ww_reply w)) (wmoDescription (weathercode (ww_reply w)))
       (nowString (ww_clock w)) true) /\
  (forall w s, weather_failed (ww_reply w) ->
     fetchWeather w s = WeatherState.set_fetchedAt (nowString (ww_clock w)) s) /\
  (forall w s, WeatherState.valid s = true ->
     WeatherState.valid (fetchWeather w s) = true) /\
  (forall ws,
     WeatherState.valid (weather_cycles ws WeatherState.init) = true <->
     Exists (fun w => weather_ok (ww_reply w)) ws).
Proof.
  split; [exact fetchWeather_ok |]. split; [exact fetchWeather_failed |]. split.
  - intros w s H. destruct (weather_ok_or_failed (ww_reply w)) as [Hok | Hf].
    + now rewrite fetchWeather_ok.
    + now rewrite fetchWeather_failed.
  - intros ws. rewrite weather_cycles_valid_iff. cbn. split; [| now right].
    intros [H | H]; [discriminate | exact H].
Qed.

Lemma weather_valid_policy_witness :
  fetchWeather weather_down WeatherState.init
  = WeatherState.set_fetchedAt (nowString (ww_clock weather_down)) WeatherState.init.
Proof.
  apply (proj1 (proj2 weather_valid_policy) weather_down WeatherState.init).
  left. cbn. lia.
Defined.

(** ** Directions below the first sector *)

(** X17: a direction below -22.5 degrees never yields a sector other than
    "N": the quotient is truncated toward zero and the remainder keeps its
    sign, so the index lies in [-7, 0]; down to -67 degrees it is 0 and the
    result is "N" (also for -45, which lies in the NW sector), and a negative
    index is outside the table. *)
Theorem windDirection_below_first_sector :
  (forall deg : float, (- (67) <= deg)%Q -> (deg <= 22)%Q ->
     windDirection deg = Some "N"%string) /\
  (forall deg : float,
     (- inject_Z (2 ^ 36) <= deg)%Q -> (deg < - (45 # 2))%Q ->
     exists idx,
       windDirection_idx deg = Some idx /\ -7 <= idx <= 0 /\
       windDirection deg = (if idx =? 0 then Some "N"%string else None)).
Proof.
  split.
  - intros deg Hlo Hhi.
    assert (H0 : 0 <= Qtrunc (wind_quotient deg)).
    { apply Z.le_trans with (Qtrunc (wind_quotient (- (67))%Q)).
      - now vm_compute.
      - now apply Qtrunc_le, wind_quotient_le. }
    assert (H1 : Qtrunc (wind_quotient deg) <= 0).
    { apply Z.le_trans with (Qtrunc (wind_quotient 22%Q)).
      - now apply Qtrunc_le, wind_quotient_le.
      - now vm_compute. }
    unfold windDirection.
    rewrite windDirection_idx_eq by (unfold INT_MIN, INT_MAX; lia).
    replace (Qtrunc (wind_quotient deg)) with 0 by lia.
    reflexivity.
  - intros deg Hlo Hhi.
    assert (Hmin : INT_MIN <= Qtrunc (wind_quotient deg)).
    { apply Z.le_trans with (Qtrunc (wind_quotient (- inject_Z (2 ^ 36))%Q)).
      - now vm_compute.
      - now apply Qtrunc_le, wind_quotient_le. }
    assert (Hmax : Qtrunc (wind_quotient deg) <= 0).
    { apply Z.le_trans with (Qtrunc (wind_quotient (- (45 # 2))%Q)).
      - apply Qtrunc_le, wind_quotient_le, Qlt_le_weak. exact Hhi.
      - now vm_compute. }
    exists (Z.rem (Qtrunc (wind_quotient deg)) 8).
    assert (E : windDirection_idx deg = Some (Z.rem (Qtrunc (wind_quotient deg)) 8)).
    { apply windDirection_idx_eq. unfold INT_MAX. lia. }
    pose proof (Z.rem_bound_pos_neg (Qtrunc (wind_quotient deg)) 8
                  ltac:(lia) Hmax) as Hr0.
    assert (Hr : -7 <= Z.rem (Qtrunc (wind_quotient deg)) 8 <= 0) by lia.
    split; [exact E |]. split; [exact Hr |].
    unfold windDirection. rewrite E.
    destruct (Z.ltb_spec (Z.rem (Qtrunc (wind_quotient deg)) 8) 0) as [Hn | Hn].
    + destruct (Z.eqb_spec (Z.rem (Qtrunc (wind_quotient deg)) 8) 0); [lia | reflexivity].
    + replace (Z.rem (Qtrunc (wind_quotient deg)) 8) with 0 by lia. reflexivity.
Qed.

Lemma windDirection_below_first_sector_witness :
  windDirection (- (45))%Q = Some "N"%string.
Proof.
  apply (proj1 windDirection_below_first_sector (- (45))%Q); now vm_compute.
Defined.

(** ** The firmware from power-on *)
















